(** * socket-chat-sample: the hub, the two pumps and the connection entry point

    A shallow embedding of [hub.go] ([newHub], [Hub.run]) and [client.go]
    (the timing constants, [readPump], [writePump], [serveWs]).

    Go channels are records (capacity, buffered values, closed flag); a
    [*Client] pointer is its identity; [h.clients] is a finite set of
    identities (the map only ever stores [true]); the [send] channel of each
    client lives in a store indexed by identity, shared by the hub (sender)
    and the client's write pump (receiver).  Operations that panic in Go
    (closing a closed channel, sending on a closed channel) return [Panic]. *)

From Stdlib Require Import ZArith Strings.Byte.
From stdpp Require Import gmap list.

#[global] Set Warnings "-clear-no-such-hyp".


(** Bytes compare by [Byte.eqb]. *)
Global Instance byte_eq_dec : EqDecision byte := Byte.byte_eq_dec.

(** ** Channels *)

Record Chan (A : Type) := MkChan {
  ch_cap : nat;          (* cap(ch): 0 for an unbuffered channel *)
  ch_buf : list A;       (* buffered values, oldest first; len(ch) *)
  ch_closed : bool       (* set by close(ch) *)
}.
Arguments MkChan {A} _ _ _.
Arguments ch_cap {A} _.
Arguments ch_buf {A} _.
Arguments ch_closed {A} _.

(** [make(chan T, n)]; [make(chan T)] is [make_chan 0]. *)
Definition make_chan {A} (n : nat) : Chan A := MkChan n [] false.

Inductive Outcome (A : Type) :=
| Ok (a : A)
| Panic.
Arguments Ok {A} _.
Arguments Panic {A}.

(** [close(ch)]: panics on a channel that is already closed; the buffered
    values stay receivable. *)
Definition chan_close {A} (ch : Chan A) : Outcome (Chan A) :=
  if ch_closed ch then Panic
  else Ok (MkChan (ch_cap ch) (ch_buf ch) true).

(** A buffered channel has room when fewer than [cap] values are queued. *)
Definition has_room {A} (ch : Chan A) : bool :=
  length (ch_buf ch) <? ch_cap ch.

(** [select { case ch <- v: ... default: ... }] with no receiver parked on
    [ch]: panics when [ch] is closed, enqueues when there is room ([Some]),
    and otherwise takes the default branch ([None]).  On a buffered channel a
    parked receiver implies an empty buffer, so room is decided by the buffer
    alone. *)
Definition try_send {A} (ch : Chan A) (v : A) : Outcome (option (Chan A)) :=
  if ch_closed ch then Panic
  else if has_room ch then Ok (Some (MkChan (ch_cap ch) (ch_buf ch ++ [v]) false))
  else Ok None.

(** A blocking send [ch <- v] at a moment when [receiver_ready] tells whether
    a goroutine is parked in a receive on [ch]: it completes at once when a
    receiver takes the value or the buffer has room, and otherwise the sender
    is suspended. *)
Inductive SendStatus := Completes | Blocks | SendPanics.

Definition blocking_send_status {A} (ch : Chan A) (receiver_ready : bool) : SendStatus :=
  if ch_closed ch then SendPanics
  else if receiver_ready || has_room ch then Completes
  else Blocks.

(** [v, ok := <-ch] when a value is available or the channel is closed;
    [None] when the receive would block. *)
Definition chan_recv {A} (ch : Chan A) : option (option A * Chan A) :=
  match ch_buf ch with
  | v :: rest => Some (Some v, MkChan (ch_cap ch) rest (ch_closed ch))
  | [] => if ch_closed ch then Some (None, ch) else None
  end.

(** ** Clients and the hub *)

(** The identity of a [*Client]. *)
Abbreviation Client := positive.
Abbreviation message := (list byte).

(** [send: make(chan []byte, 256)] in [serveWs]. *)
Definition sendCap : nat := 256.

(** The part of the program state the dispatch loop works on: the key set of
    [h.clients] and the [send] channel of every client. A client whose
    channel was never touched still has the one [serveWs] made for it. *)
Record State := MkState {
  clients : gset Client;
  sends : gmap Client (Chan message)
}.

Definition send_of (st : State) (c : Client) : Chan message :=
  default (make_chan sendCap) (sends st !! c).

(** [Hub]: the three request channels next to the registry. *)
Record Hub := MkHub {
  hub_broadcast : Chan message;
  hub_register : Chan Client;
  hub_unregister : Chan Client;
  hub_clients : gset Client
}.

Definition newHub : Hub :=
  {| hub_broadcast := make_chan 0;
     hub_register := make_chan 0;
     hub_unregister := make_chan 0;
     hub_clients := ∅ |}.

(** The state [Hub.run] starts from. *)
Definition init : State := MkState (hub_clients newHub) ∅.

(** What the dispatch loop does to the clients, in program order. *)
Inductive Effect :=
| Enqueue (c : Client) (m : message)   (* client.send <- message succeeded *)
| Close (c : Client)                   (* close(client.send) *)
| Delete (c : Client).                 (* delete(h.clients, client) *)

Global Instance Effect_eq_dec : EqDecision Effect.
Proof. solve_decision. Defined.

Definition effect_client (e : Effect) : Client :=
  match e with Enqueue c _ | Close c | Delete c => c end.

(** [case client := <-h.register: h.clients[client] = true] *)
Definition on_register (c : Client) (st : State) : State :=
  MkState ({[c]} ∪ clients st) (sends st).

(** [case client := <-h.unregister:] delete and close, only when present. *)
Definition on_unregister (c : Client) (st : State) : Outcome (State * list Effect) :=
  if decide (c ∈ clients st) then
    match chan_close (send_of st c) with
    | Ok ch => Ok (MkState (clients st ∖ {[c]}) (<[c := ch]> (sends st)),
                   [Delete c; Close c])
    | Panic => Panic
    end
  else Ok (st, []).

(** The body of [for client := range h.clients] for one client. *)
Definition deliver (m : message) (c : Client) (st : State) : Outcome (State * list Effect) :=
  match try_send (send_of st c) m with
  | Ok (Some ch) => Ok (MkState (clients st) (<[c := ch]> (sends st)), [Enqueue c m])
  | Ok None =>
      match chan_close (send_of st c) with
      | Ok ch => Ok (MkState (clients st ∖ {[c]}) (<[c := ch]> (sends st)),
                     [Close c; Delete c])
      | Panic => Panic
      end
  | Panic => Panic
  end.

(** [case message := <-h.broadcast:] the loop over the registry. Go visits
    the keys in an unspecified order; the only key deleted during the loop is
    the one being visited, so every key present at the start is visited once:
    [order] is that sequence. *)
Fixpoint fanout (m : message) (order : list Client) (st : State)
  : Outcome (State * list Effect) :=
  match order with
  | [] => Ok (st, [])
  | c :: rest =>
      match deliver m c st with
      | Ok (st1, tr1) =>
          match fanout m rest st1 with
          | Ok (st2, tr2) => Ok (st2, tr1 ++ tr2)
          | Panic => Panic
          end
      | Panic => Panic
      end
  end.

(** The fan-out with the registry walked in the order of [elements]. *)
Definition broadcast (m : message) (st : State) : Outcome (State * list Effect) :=
  fanout m (elements (clients st)) st.

(** The write pump of [c] takes one value off [c.send] (environment step of
    the hub); nothing happens when the receive would block. *)
Definition on_drain (c : Client) (st : State) : State :=
  match chan_recv (send_of st c) with
  | Some (_, ch) => MkState (clients st) (<[c := ch]> (sends st))
  | None => st
  end.

Inductive Event :=
| Register (c : Client)
| Unregister (c : Client)
| Broadcast (m : message)
| Drain (c : Client).

Global Instance Event_eq_dec : EqDecision Event.
Proof. solve_decision. Defined.

(** One iteration of the [for { select { ... } }] of [Hub.run]. *)
Inductive hub_step : State → Event → Outcome (State * list Effect) → Prop :=
| step_register st c :
    hub_step st (Register c) (Ok (on_register c st, []))
| step_unregister st c :
    hub_step st (Unregister c) (on_unregister c st)
| step_broadcast st m order :
    order ≡ₚ elements (clients st) →
    hub_step st (Broadcast m) (fanout m order st)
| step_drain st c :
    hub_step st (Drain c) (Ok (on_drain c st, [])).

(** A run over a sequence of events; the log keeps, per event, what the hub
    did while serving it. A panic ends the run. *)
Abbreviation Log := (list (Event * list Effect)).

Inductive hub_run : State → list Event → Outcome (State * Log) → Prop :=
| run_done st : hub_run st [] (Ok (st, []))
| run_step st ev st1 tr evs st2 log :
    hub_step st ev (Ok (st1, tr)) →
    hub_run st1 evs (Ok (st2, log)) →
    hub_run st (ev :: evs) (Ok (st2, (ev, tr) :: log))
| run_step_panic st ev st1 tr evs :
    hub_step st ev (Ok (st1, tr)) →
    hub_run st1 evs Panic →
    hub_run st (ev :: evs) Panic
| run_panic st ev evs :
    hub_step st ev Panic →
    hub_run st (ev :: evs) Panic.

(** The executable instance: every fan-out walks [elements]. *)
Definition step (ev : Event) (st : State) : Outcome (State * list Effect) :=
  match ev with
  | Register c => Ok (on_register c st, [])
  | Unregister c => on_unregister c st
  | Broadcast m => broadcast m st
  | Drain c => Ok (on_drain c st, [])
  end.

Fixpoint run (evs : list Event) (st : State) : Outcome (State * Log) :=
  match evs with
  | [] => Ok (st, [])
  | ev :: rest =>
      match step ev st with
      | Ok (st1, tr) =>
          match run rest st1 with
          | Ok (st2, log) => Ok (st2, (ev, tr) :: log)
          | Panic => Panic
          end
      | Panic => Panic
      end
  end.

(** ** client.go: the constants *)

(** [time.Duration] counts nanoseconds in an [int64]. *)
Module time.
Definition Nanosecond : Z := 1.
Definition Microsecond : Z := 1000 * Nanosecond.
Definition Millisecond : Z := 1000 * Microsecond.
Definition Second : Z := 1000 * Millisecond.
Definition maxDuration : Z := 2 ^ 63 - 1.
Definition minDuration : Z := - 2 ^ 63.
(** A typed constant must be representable in its type. *)
Definition representable (d : Z) : bool :=
  (minDuration <=? d)%Z && (d <=? maxDuration)%Z.
End time.

(** Time allowed to write a message to the peer. *)
Definition writeWait : Z := 10 * time.Second.

(** Time allowed to read the next pong message from the peer. *)
Definition pongWait : Z := 60 * time.Second.

(** Send pings to peer with this period: [(pongWait * 9) / 10]; constant
    division of integers truncates. *)
Definition pingPeriod : Z := (pongWait * 9) ÷ 10.

(** Maximum message size allowed from peer. *)
Definition maxMessageSize : Z := 512.

Definition newline : list byte := [x0a].
Definition space : list byte := [x20].

(** ** The [bytes] functions [readPump] calls *)

(** [bytes.HasPrefix(s, prefix)] *)
Fixpoint HasPrefix (s prefix : list byte) {struct prefix} : bool :=
  match prefix, s with
  | [], _ => true
  | p :: prefix', b :: s' => Byte.eqb b p && HasPrefix s' prefix'
  | _ :: _, [] => false
  end.

(** The copy loop of [bytes.Replace]: [skip] counts the bytes of a matched
    [old] that are still to be passed over. *)
Fixpoint replace_from (old new : list byte) (skip : nat) (s : list byte) : list byte :=
  match s with
  | [] => []
  | b :: t =>
      match skip with
      | S k => replace_from old new k t
      | O =>
          if HasPrefix s old
          then new ++ replace_from old new (length old - 1) t
          else b :: replace_from old new 0 t
      end
  end.

(** [bytes.Replace(s, old, new, -1)] for a non-empty [old]: every
    non-overlapping occurrence of [old], left to right, becomes [new]. (With an
    empty [old] Go inserts [new] around every rune; the program has no such
    call and the input is returned as it is.) *)
Definition Replace (s old new : list byte) : list byte :=
  match old with
  | [] => s
  | _ :: _ => replace_from old new 0 s
  end.

(** The UTF-8 encodings of the code points [unicode.IsSpace] accepts:
    ['\t'], ['\n'], ['\v'], ['\f'], ['\r'], [' '], U+0085, U+00A0, U+1680,
    U+2000 to U+200A, U+2028, U+2029, U+202F, U+205F and U+3000. A byte
    sequence that is not one of these decodes to another rune or to
    [utf8.RuneError], neither of which is white space. *)
Definition spaceRunes : list (list byte) :=
  [ [x09]; [x0a]; [x0b]; [x0c]; [x0d]; [x20];
    [xc2; x85]; [xc2; xa0];
    [xe1; x9a; x80];
    [xe2; x80; x80]; [xe2; x80; x81]; [xe2; x80; x82]; [xe2; x80; x83];
    [xe2; x80; x84]; [xe2; x80; x85]; [xe2; x80; x86]; [xe2; x80; x87];
    [xe2; x80; x88]; [xe2; x80; x89]; [xe2; x80; x8a];
    [xe2; x80; xa8]; [xe2; x80; xa9]; [xe2; x80; xaf];
    [xe2; x81; x9f];
    [xe3; x80; x80] ].

(** The white-space rune [s] starts with, if any. *)
Definition leading_space (s : list byte) : option (list byte) :=
  List.find (HasPrefix s) spaceRunes.

(** The white-space rune [s] ends with, if any. *)
Definition trailing_space (s : list byte) : option (list byte) :=
  List.find (fun e => HasPrefix (reverse s) (reverse e)) spaceRunes.

(** Slicing off leading white space, one rune per round; [length s] rounds
    are enough since each round removes at least one byte. *)
Fixpoint trim_left (fuel : nat) (s : list byte) : list byte :=
  match fuel with
  | O => s
  | S fuel' =>
      match leading_space s with
      | Some e => trim_left fuel' (drop (length e) s)
      | None => s
      end
  end.

Fixpoint trim_right (fuel : nat) (s : list byte) : list byte :=
  match fuel with
  | O => s
  | S fuel' =>
      match trailing_space s with
      | Some e => trim_right fuel' (take (length s - length e) s)
      | None => s
      end
  end.

(** [bytes.TrimSpace(s)]: "returns a subslice of s by slicing off all leading
    and trailing white space, as defined by Unicode". *)
Definition TrimSpace (s : list byte) : list byte :=
  let s1 := trim_left (length s) s in
  trim_right (length s1) s1.

(** [bytes.TrimSpace(bytes.Replace(message, newline, space, -1))] *)
Definition normalize (m : message) : message :=
  TrimSpace (Replace m newline space).

(** ** readPump *)

(** What [c.conn.ReadMessage()] returns. *)
Inductive ReadResult :=
| ReadOk (m : message)
| ReadErr.

(** The requests [readPump] sends to the hub for a sequence of read results:
    one [c.hub.broadcast <- message] per message read, and, on the first
    error, the deferred [c.hub.unregister <- c]. With the reads used up and no
    error the pump is waiting in [ReadMessage]. *)
Fixpoint readPump (c : Client) (reads : list ReadResult) : list Event :=
  match reads with
  | [] => []
  | ReadOk m :: rest => Broadcast (normalize m) :: readPump c rest
  | ReadErr :: _ => [Unregister c]
  end.

(** ** writePump *)

(** What the hub may do to [c.send] while the write pump runs: enqueue
    further messages, and close the channel. *)
Definition hub_interferes (arrived : list message) (ch : Chan message) : Chan message :=
  MkChan (ch_cap ch) (ch_buf ch ++ arrived) (ch_closed ch).

(** [for i := 0; i < n; i++ { w.Write(newline); w.Write(<-c.send) }], with
    [arrivals] giving what the hub enqueues before each receive. A receive
    from a closed, empty channel yields the zero value [nil]; a receive that
    finds nothing on an open channel waits ([None]). *)
Fixpoint coalesce (n : nat) (w : list byte) (ch : Chan message)
    (arrivals : list (list message)) : option (list byte * Chan message) :=
  match n with
  | O => Some (w, ch)
  | S k =>
      let ch0 := hub_interferes (hd [] arrivals) ch in
      match chan_recv ch0 with
      | Some (Some v, ch1) => coalesce k (w ++ newline ++ v) ch1 (tl arrivals)
      | Some (None, ch1) => coalesce k (w ++ newline) ch1 (tl arrivals)
      | None => None
      end
  end.

Inductive Written :=
| TextMessage (payload : list byte)   (* one websocket.TextMessage frame *)
| CloseMessage.                       (* websocket.CloseMessage, then return *)

(** The [case message, ok := <-c.send] branch of [writePump] when the
    connection accepts the writes: the frame written and the channel left
    behind; [None] while nothing can be received. *)
Definition writePump_send (ch : Chan message) (arrivals : list (list message))
  : option (Written * Chan message) :=
  match chan_recv ch with
  | None => None
  | Some (None, ch1) => Some (CloseMessage, ch1)
  | Some (Some m, ch1) =>
      let n := length (ch_buf ch1) in
      match coalesce n m ch1 arrivals with
      | Some (w, ch2) => Some (TextMessage w, ch2)
      | None => None
      end
  end.

(** ** serveWs *)

Inductive UpgradeResult (Conn : Type) :=
| Upgraded (conn : Conn)
| UpgradeError.
Arguments Upgraded {Conn} _.
Arguments UpgradeError {Conn}.

(** What [serveWs] does, in program order. *)
Inductive Action (Conn : Type) :=
| LogError                                            (* log.Println(err) *)
| NewClient (c : Client) (conn : Conn) (send : Chan message)
| SendRegister (c : Client)                           (* client.hub.register <- client *)
| GoWritePump (c : Client)                            (* go client.writePump() *)
| GoReadPump (c : Client).                            (* go client.readPump() *)
Arguments LogError {Conn}.
Arguments NewClient {Conn} _ _ _.
Arguments SendRegister {Conn} _.
Arguments GoWritePump {Conn} _.
Arguments GoReadPump {Conn} _.

(** [serveWs]: [fresh] is the address of the [Client] it allocates. *)
Definition serveWs {Conn} (upgrade : UpgradeResult Conn) (fresh : Client)
  : list (Action Conn) :=
  match upgrade with
  | UpgradeError => [LogError]
  | Upgraded conn =>
      [ NewClient fresh conn (make_chan sendCap);
        SendRegister fresh;
        GoWritePump fresh;
        GoReadPump fresh ]
  end.

(** Where an action sits in the sequence. *)
Definition position {Conn} (P : Action Conn → bool) (acts : list (Action Conn)) : option nat :=
  fst <$> list_find (fun a => P a = true) acts.

Definition is_register {Conn} (a : Action Conn) : bool :=
  match a with SendRegister _ => true | _ => false end.
Definition is_pump {Conn} (a : Action Conn) : bool :=
  match a with GoWritePump _ | GoReadPump _ => true | _ => false end.
Definition is_new_client {Conn} (a : Action Conn) : bool :=
  match a with NewClient _ _ _ => true | _ => false end.

(** ** The claims as the specification words them, for comparison *)

(** "converting internal newline sequences to a single delimiter": a run of
    newline bytes becomes one space. [in_run] tells that the previous byte was
    a newline too. *)
Fixpoint collapse_newlines (in_run : bool) (s : list byte) : list byte :=
  match s with
  | [] => []
  | b :: t =>
      if Byte.eqb b x0a
      then (if in_run then [] else space) ++ collapse_newlines true t
      else b :: collapse_newlines false t
  end.

(** "stripping a single outer whitespace margin and converting internal
    newline sequences to a single delimiter". *)
Definition spec_normalize (m : message) : message :=
  collapse_newlines false (TrimSpace m).

(** "each client's register precedes its own deregister and any broadcast
    targeting it": no registration of [c] comes after a deregistration of [c],
    nor after a broadcast that itself came after a registration of [c]. *)
Definition causally_ordered (evs : list Event) : Prop :=
  ∀ pre c post, evs = pre ++ Register c :: post →
    (Unregister c ∉ pre) ∧
    (∀ p1 m p2, pre = p1 ++ Broadcast m :: p2 → Register c ∉ p1).

(** ** Predicates and closed forms the statements use *)

(** The ordering condition as a check that walks the events once: [R]
    collects the clients registered so far, [S] those that may no longer
    register. *)
Fixpoint causal_from (R S : gset Client) (evs : list Event) : bool :=
  match evs with
  | [] => true
  | Register c :: rest => bool_decide (c ∉ S) && causal_from ({[c]} ∪ R) S rest
  | Unregister c :: rest => causal_from R ({[c]} ∪ S) rest
  | Broadcast _ :: rest => causal_from R (R ∪ S) rest
  | Drain _ :: rest => causal_from R S rest
  end.

Definition causal (evs : list Event) : bool := causal_from ∅ ∅ evs.

(** A client was evicted when some fan-out closed its channel. *)
Definition evicted (log : Log) (c : Client) : Prop :=
  ∃ m tr, (Broadcast m, tr) ∈ log ∧ Close c ∈ tr.

(** Every registered client has an open [send] channel. *)
Definition wf (st : State) : Prop :=
  ∀ c, c ∈ clients st → ch_closed (send_of st c) = false.

Definition wfb (st : State) : bool :=
  forallb (fun c => negb (ch_closed (send_of st c))) (elements (clients st)).

(** What one visit of the fan-out leaves in a channel, and what it logs. *)
Definition delivered (m : message) (ch : Chan message) : Chan message :=
  if has_room ch then MkChan (ch_cap ch) (ch_buf ch ++ [m]) false
  else MkChan (ch_cap ch) (ch_buf ch) true.

Definition deliver_effects (m : message) (st : State) (c : Client) : list Effect :=
  if has_room (send_of st c) then [Enqueue c m] else [Close c; Delete c].

(** [R] holds every client registered so far and [S] every client that may
    no longer register: the registry stays inside [R], registered clients
    have open channels, and a closed channel belongs to a client in [S]. *)
Definition inv (st : State) (R S : gset Client) : Prop :=
  clients st ⊆ R ∧ wf st ∧ ∀ c, ch_closed (send_of st c) = true → c ∈ S.

(** What [Replace] does to one byte when [old] is the newline and [new] the
    space. *)
Definition newline_to_space (b : byte) : byte :=
  if Byte.eqb b x0a then x20 else b.

(** ** Sample states and inputs *)

(** A [send] channel filled to its capacity by a stalled write pump. *)
Definition stalled_chan : Chan message :=
  MkChan sendCap (repeat [x61] sendCap) false.

(** Clients 1, 2 and 3 registered; the write pump of client 2 is stalled. *)
Definition one_stalled : State :=
  MkState {[1%positive; 2%positive; 3%positive]} {[2%positive := stalled_chan]}.

(** Clients 1, 2 and 3 registered, all with empty queues. *)
Definition three_idle : State :=
  MkState {[1%positive; 2%positive; 3%positive]} ∅.

(** Two clients connect; the hub fans out 256 messages that nobody drains,
    client 1 then takes one message off its queue and the next fan-out finds
    the queue of client 2 full; client 1 leaves at the end. *)
Definition busy_session : list Event :=
  [Register 1%positive; Register 2%positive]
  ++ repeat (Broadcast [x61]) sendCap
  ++ [Drain 1%positive; Broadcast [x62]; Unregister 1%positive].

(** The state a first deregistration of client 1 leaves behind. *)
Definition after_unregister : State :=
  MkState (({[1%positive]} ∪ ∅) ∖ {[1%positive]})
          (<[1%positive := MkChan sendCap [] true]> ∅).

(** ["a\n\nb"] *)
Definition two_newlines : message := [x61; x0a; x0a; x62].

(** ** readPump on a connection with its read limit *)

(** What arrives on the connection: a complete message, or a failure of the
    transport (peer gone, deadline passed, protocol error). *)
Inductive Inbound :=
| Frame (payload : message)
| ConnError.

(** [c.conn.ReadMessage()] after [c.conn.SetReadLimit(maxMessageSize)]: a
    message longer than the limit makes the read fail, like any failure of
    the transport. *)
Definition ReadMessage (i : Inbound) : ReadResult :=
  match i with
  | Frame p =>
      if (Z.of_nat (length p) <=? maxMessageSize)%Z then ReadOk p else ReadErr
  | ConnError => ReadErr
  end.

(** [readPump] fed by the connection. *)
Definition readPump_conn (c : Client) (inbound : list Inbound) : list Event :=
  readPump c (map ReadMessage inbound).

(** ['\t'], ['\n'], ['\v'], ['\f'], ['\r'] and [' ']. *)
Definition asciiSpace (b : byte) : bool :=
  match b with
  | x09 | x0a | x0b | x0c | x0d | x20 => true
  | _ => false
  end.

(** ** The loop of writePump *)

(** What the write pump does to its connection and its ticker. *)
Inductive ConnOp :=
| SetWriteDeadline (d : Z)                    (* c.conn.SetWriteDeadline(now + d) *)
| TextFrame (payload : list byte) (sent : bool)  (* NextWriter .. w.Close(), and whether w.Close succeeded *)
| WriterFailed                                (* NextWriter returned an error *)
| CloseFrame                                  (* WriteMessage(websocket.CloseMessage, []byte{}) *)
| Ping (sent : bool)                          (* WriteMessage(websocket.PingMessage, nil) *)
| TickerStop                                  (* ticker.Stop() *)
| ConnClose.                                  (* c.conn.Close() *)

Global Instance ConnOp_eq_dec : EqDecision ConnOp.
Proof. solve_decision. Defined.

(** What happens around the pump, one entry per occurrence: the [select]
    takes the [c.send] case (with what the hub enqueues during the coalescing
    loop and the results of [NextWriter] and [w.Close]), the ticker fires
    (with the result of the ping write), the hub's fan-out visits this client
    with a message, or the hub closes the channel. *)
Inductive PumpEvent :=
| SendReady (arrivals : list (list message)) (writer_ok close_ok : bool)
| TickerFired (ping_ok : bool)
| HubDelivers (m : message)
| HubCloses.

(** The deferred [ticker.Stop(); c.conn.Close()]. *)
Definition pump_cleanup : list ConnOp := [TickerStop; ConnClose].

(** [writePump]: the operations on the connection, the channel left behind
    and whether the function returned (otherwise it sits in its [select]).
    The hub only visits and closes channels of registered clients, which are
    open; a [SendReady] with nothing to receive leaves the pump waiting. *)
Fixpoint writePump (evs : list PumpEvent) (ch : Chan message)
  : list ConnOp * Chan message * bool :=
  match evs with
  | [] => ([], ch, false)
  | HubDelivers m :: rest =>
      writePump rest (if ch_closed ch then ch else delivered m ch)
  | HubCloses :: rest =>
      writePump rest (MkChan (ch_cap ch) (ch_buf ch) true)
  | TickerFired ping_ok :: rest =>
      if ping_ok then
        let '(ops, ch', returned) := writePump rest ch in
        (SetWriteDeadline writeWait :: Ping true :: ops, ch', returned)
      else (SetWriteDeadline writeWait :: Ping false :: pump_cleanup, ch, true)
  | SendReady arrivals writer_ok close_ok :: rest =>
      match chan_recv ch with
      | None => writePump rest ch
      | Some (None, ch1) =>
          (SetWriteDeadline writeWait :: CloseFrame :: pump_cleanup, ch1, true)
      | Some (Some m, ch1) =>
          if writer_ok then
            match coalesce (length (ch_buf ch1)) m ch1 arrivals with
            | Some (w, ch2) =>
                if close_ok then
                  let '(ops, ch', returned) := writePump rest ch2 in
                  (SetWriteDeadline writeWait :: TextFrame w true :: ops, ch', returned)
                else
                  (SetWriteDeadline writeWait :: TextFrame w false :: pump_cleanup,
                   ch2, true)
            | None => ([SetWriteDeadline writeWait], ch1, false)
            end
          else (SetWriteDeadline writeWait :: WriterFailed :: pump_cleanup, ch1, true)
      end
  end.

(** The payload of a frame that carries [msgs]: the messages separated by
    newlines. *)
Definition frame_of (msgs : list message) : list byte :=
  match msgs with
  | [] => []
  | m :: queued => m ++ flat_map (fun v => newline ++ v) queued
  end.

(** A write that succeeded and lets the loop go on. *)
Definition is_good (op : ConnOp) : bool :=
  match op with
  | TextFrame _ true | Ping true => true
  | _ => false
  end.

(** A write after which the pump returns: the close frame, or a write that
    failed. *)
Definition is_final (op : ConnOp) : bool :=
  match op with
  | CloseFrame | WriterFailed | TextFrame _ false | Ping false => true
  | _ => false
  end.

(** Each write with the deadline set right before it. *)
Definition with_deadlines (writes : list ConnOp) : list ConnOp :=
  flat_map (fun w => [SetWriteDeadline writeWait; w]) writes.

(** Every channel has the capacity [serveWs] gives it and holds no more than
    that. *)
Definition bounded (st : State) : Prop :=
  ∀ c, ch_cap (send_of st c) = sendCap ∧ length (ch_buf (send_of st c)) ≤ sendCap.

(** A message of white space only. *)
Definition blank_message : message := [x20; x0a; x09; x0d; x0a; x20].

(** A channel the hub closed while three messages were pending. *)
Definition closed_pending : Chan message :=
  MkChan sendCap [[x61]; [x62]; [x63]] true.

(** Client 1 registered with a channel that was closed before. *)
Definition reregistered : State :=
  MkState {[1%positive; 2%positive]} {[1%positive := MkChan sendCap [] true]}.

(** * Proofs *)

(** ** Lists *)

Lemma flat_map_ext_elem {A B} (f g : A → list B) (l : list A) :
  (∀ a, a ∈ l → f a = g a) → flat_map f l = flat_map g l.
Proof.
  induction l as [|a l IH]; intros H; simpl; [done|].
  rewrite H by left. rewrite IH; [done|]. intros b Hb. apply H. by right.
Qed.

(** ** The store of channels *)

Lemma send_of_insert s h c ch c' :
  send_of (MkState s (<[c := ch]> h)) c' =
  if decide (c = c') then ch else default (make_chan sendCap) (h !! c').
Proof.
  unfold send_of; simpl. rewrite lookup_insert. by case_decide.
Qed.

Lemma wfb_wf st : wfb st = true ↔ wf st.
Proof.
  unfold wfb, wf. rewrite forallb_forall. split.
  - intros H c Hc. apply negb_true_iff, H, list_elem_of_In, elem_of_elements, Hc.
  - intros H c Hc. apply negb_true_iff, H, elem_of_elements, list_elem_of_In, Hc.
Qed.

Lemma wf_init : wf init.
Proof. intros c Hc. reflexivity. Qed.

(** ** One visit of the fan-out *)

Lemma deliver_open m c st :
  ch_closed (send_of st c) = false →
  deliver m c st =
    Ok (MkState (if has_room (send_of st c) then clients st else clients st ∖ {[c]})
                (<[c := delivered m (send_of st c)]> (sends st)),
        deliver_effects m st c).
Proof.
  intros Hopen. unfold deliver, try_send, chan_close, delivered, deliver_effects.
  rewrite Hopen. by destruct (has_room (send_of st c)).
Qed.

(** ** The fan-out in closed form *)

Lemma fanout_spec m order : ∀ st,
  NoDup order →
  (∀ c, c ∈ order → ch_closed (send_of st c) = false) →
  ∃ st', fanout m order st = Ok (st', flat_map (deliver_effects m st) order)
    ∧ (∀ c, c ∈ clients st' ↔
            c ∈ clients st ∧ ¬ (c ∈ order ∧ has_room (send_of st c) = false))
    ∧ (∀ c, sends st' !! c =
            if decide (c ∈ order) then Some (delivered m (send_of st c))
            else sends st !! c).
Proof.
  induction order as [|c rest IH]; intros st Hnd Hopen.
  - exists st. simpl. split; [done|]. split; [|done].
    intros c. set_solver.
  - apply NoDup_cons in Hnd as [Hc Hnd].
    simpl. rewrite deliver_open by (apply Hopen; left).
    set (st1 := MkState _ _).
    assert (Hsame : ∀ c', c' ∈ rest → send_of st1 c' = send_of st c').
    { intros c' Hc'. unfold st1. rewrite send_of_insert.
      case_decide; [by subst|done]. }
    destruct (IH st1 Hnd) as (st' & Hrun & Hcl & Hsd).
    { intros c' Hc'. rewrite Hsame by done. apply Hopen. by right. }
    exists st'. rewrite Hrun. split; [|split].
    + f_equal. f_equal. f_equal.
      apply flat_map_ext_elem. intros c' Hc'.
      unfold deliver_effects. by rewrite Hsame.
    + intros c'. rewrite Hcl. unfold st1 at 1; simpl.
      destruct (decide (c' = c)) as [->|Hne].
      * destruct (has_room (send_of st c)) eqn:Hr; set_solver.
      * assert (c' ∈ rest → send_of st1 c' = send_of st c') by auto.
        destruct (has_room (send_of st c)); split.
        all: intros [H1 H2]; split; [set_solver|].
        all: intros [H3 H4]; apply H2.
        all: try (apply elem_of_cons in H3 as [?|H3]; [done|]).
        all: try (split; [done|]; rewrite H; done).
        all: split; [by right | by rewrite <- H].
    + intros c'. rewrite Hsd. unfold st1 at 2; simpl.
      destruct (decide (c' = c)) as [->|Hne].
      * rewrite decide_False by done. rewrite decide_True by left.
        by rewrite lookup_insert_eq.
      * rewrite lookup_insert_ne by done.
        destruct (decide (c' ∈ rest)) as [Hin|Hnin].
        -- rewrite decide_True by (by right). by rewrite Hsame.
        -- rewrite decide_False; [done|]. set_solver.
Qed.

(** ** What the fan-out logs *)

Lemma elem_of_fanout_effects m st order e :
  e ∈ flat_map (deliver_effects m st) order ↔
  ∃ c, c ∈ order ∧ e ∈ deliver_effects m st c.
Proof.
  rewrite list_elem_of_In, in_flat_map. split.
  - intros (c & Hc & He). exists c. by rewrite !list_elem_of_In.
  - intros (c & Hc & He). exists c. by rewrite <- !list_elem_of_In.
Qed.

Lemma enqueue_logged m st order c m' :
  Enqueue c m' ∈ flat_map (deliver_effects m st) order ↔
  m' = m ∧ c ∈ order ∧ has_room (send_of st c) = true.
Proof.
  rewrite elem_of_fanout_effects. unfold deliver_effects. split.
  - intros (c' & Hc' & He). destruct (has_room (send_of st c')) eqn:Hr.
    + apply list_elem_of_singleton in He. by simplify_eq.
    + set_solver.
  - intros (-> & Hc & Hr). exists c. rewrite Hr. set_solver.
Qed.

Lemma close_logged m st order c :
  Close c ∈ flat_map (deliver_effects m st) order ↔
  c ∈ order ∧ has_room (send_of st c) = false.
Proof.
  rewrite elem_of_fanout_effects. unfold deliver_effects. split.
  - intros (c' & Hc' & He). destruct (has_room (send_of st c')) eqn:Hr.
    + set_solver.
    + apply elem_of_cons in He as [He|He]; [by simplify_eq|set_solver].
  - intros (Hc & Hr). exists c. rewrite Hr. set_solver.
Qed.

Lemma effect_client_logged m st order e :
  e ∈ flat_map (deliver_effects m st) order → effect_client e ∈ order.
Proof.
  rewrite elem_of_fanout_effects. unfold deliver_effects.
  intros (c & Hc & He). destruct (has_room (send_of st c)).
  - apply list_elem_of_singleton in He. by subst.
  - apply elem_of_cons in He as [->|He]; [done|].
    apply list_elem_of_singleton in He. by subst.
Qed.

Lemma count_effect_absent m st order e :
  effect_client e ∉ order →
  count_occ Effect_eq_dec (flat_map (deliver_effects m st) order) e = 0.
Proof.
  intros H. apply count_occ_not_In. rewrite <- list_elem_of_In.
  intros He. by apply H, (effect_client_logged m st).
Qed.

Lemma count_close_logged m st order c :
  NoDup order → c ∈ order → has_room (send_of st c) = false →
  count_occ Effect_eq_dec (flat_map (deliver_effects m st) order) (Close c) = 1.
Proof.
  induction order as [|c' rest IH]; intros Hnd Hc Hr; [by apply elem_of_nil in Hc|].
  apply NoDup_cons in Hnd as [Hc' Hnd]. simpl. rewrite count_occ_app.
  apply elem_of_cons in Hc as [->|Hc].
  - rewrite count_effect_absent by done.
    unfold deliver_effects. rewrite Hr.
    rewrite count_occ_cons_eq by done.
    by rewrite count_occ_cons_neq by done.
  - rewrite IH by done.
    assert (c ≠ c') by (by intros ->).
    unfold deliver_effects. destruct (has_room (send_of st c')).
    + by rewrite count_occ_cons_neq by done.
    + by rewrite !count_occ_cons_neq by congruence.
Qed.

Lemma count_enqueue_logged m st order c :
  NoDup order → c ∈ order → has_room (send_of st c) = true →
  count_occ Effect_eq_dec (flat_map (deliver_effects m st) order) (Enqueue c m) = 1.
Proof.
  induction order as [|c' rest IH]; intros Hnd Hc Hr; [by apply elem_of_nil in Hc|].
  apply NoDup_cons in Hnd as [Hc' Hnd]. simpl. rewrite count_occ_app.
  apply elem_of_cons in Hc as [->|Hc].
  - rewrite count_effect_absent by done.
    unfold deliver_effects. rewrite Hr.
    by rewrite count_occ_cons_eq by done.
  - rewrite IH by done.
    assert (c ≠ c') by (by intros ->).
    unfold deliver_effects. destruct (has_room (send_of st c')).
    + by rewrite count_occ_cons_neq by congruence.
    + by rewrite !count_occ_cons_neq by congruence.
Qed.

(** ** The fan-out over the registry *)

Lemma registry_order st order :
  order ≡ₚ elements (clients st) →
  NoDup order ∧ ∀ c, c ∈ order ↔ c ∈ clients st.
Proof.
  intros Hp. split.
  - rewrite Hp. apply NoDup_elements.
  - intros c. rewrite Hp. apply elem_of_elements.
Qed.

Lemma fanout_registry m st order :
  wf st → order ≡ₚ elements (clients st) →
  ∃ st', fanout m order st = Ok (st', flat_map (deliver_effects m st) order)
    ∧ (∀ c, c ∈ clients st' ↔
            c ∈ clients st ∧ has_room (send_of st c) = true)
    ∧ (∀ c, send_of st' c =
            if decide (c ∈ clients st) then delivered m (send_of st c)
            else send_of st c)
    ∧ wf st'.
Proof.
  intros Hwf Hp. destruct (registry_order st order Hp) as [Hnd Hin].
  destruct (fanout_spec m order st Hnd) as (st' & Hrun & Hcl & Hsd).
  { intros c Hc. apply Hwf, Hin, Hc. }
  assert (Hch : ∀ c, send_of st' c =
            if decide (c ∈ clients st) then delivered m (send_of st c)
            else send_of st c).
  { intros c. unfold send_of at 1. rewrite Hsd.
    destruct (decide (c ∈ order)) as [Ho|Ho].
    - rewrite decide_True by (by apply Hin). done.
    - rewrite decide_False; [done|]. by rewrite <- Hin. }
  exists st'. split; [done|]. split; [|split; [done|]].
  - intros c. rewrite Hcl, Hin.
    destruct (has_room (send_of st c)); naive_solver.
  - intros c Hc. apply Hcl in Hc as [Hc Hr]. rewrite Hch.
    rewrite decide_True by done. unfold delivered.
    destruct (has_room (send_of st c)) eqn:E; [done|].
    exfalso. apply Hr. split; [by apply Hin|done].
Qed.

(** ** Registration, deregistration and the write pump's receives *)

Lemma on_unregister_absent c st :
  c ∉ clients st → on_unregister c st = Ok (st, []).
Proof. intros H. unfold on_unregister. by rewrite decide_False. Qed.

Lemma on_unregister_present c st :
  c ∈ clients st → ch_closed (send_of st c) = false →
  on_unregister c st =
    Ok (MkState (clients st ∖ {[c]})
                (<[c := MkChan (ch_cap (send_of st c)) (ch_buf (send_of st c)) true]>
                   (sends st)),
        [Delete c; Close c]).
Proof.
  intros Hc Hopen. unfold on_unregister, chan_close.
  rewrite decide_True by done. by rewrite Hopen.
Qed.

Lemma on_drain_clients c0 st : clients (on_drain c0 st) = clients st.
Proof. unfold on_drain. by destruct (chan_recv _) as [[? ?]|]. Qed.

Lemma on_drain_closed c0 st c :
  ch_closed (send_of (on_drain c0 st) c) = ch_closed (send_of st c).
Proof.
  unfold on_drain, chan_recv.
  destruct (ch_buf (send_of st c0)) as [|v rest] eqn:Hbuf.
  - destruct (ch_closed (send_of st c0)) eqn:Hcl; [|done].
    rewrite send_of_insert. case_decide; by subst.
  - rewrite send_of_insert. case_decide; by subst.
Qed.

(** ** The invariant of the dispatch loop *)

Lemma inv_init : inv init ∅ ∅.
Proof. split; [done|]. split; [apply wf_init|]. intros c Hc. discriminate Hc. Qed.

Lemma causal_from_sealed evs : ∀ R S c,
  causal_from R S evs = true → c ∈ S → Register c ∉ evs.
Proof.
  induction evs as [|ev evs IH]; intros R S c Hc Hs; [apply not_elem_of_nil|].
  intros Hin. apply elem_of_cons in Hin as [Heq|Hin].
  - subst ev. simpl in Hc. apply andb_true_iff in Hc as [Hd _].
    by apply bool_decide_eq_true in Hd.
  - destruct ev as [c0|c0|m|c0]; simpl in Hc.
    + apply andb_true_iff in Hc as [_ Hc]. by apply (IH _ _ c Hc).
    + apply (IH _ _ c Hc); [set_solver|done].
    + apply (IH _ _ c Hc); [set_solver|done].
    + by apply (IH _ _ c Hc).
Qed.

(** One event served from a state that satisfies the invariant: the step
    does not panic, the invariant carries over to the rest of the sequence,
    and the registry changes as the event says. *)
Lemma hub_step_inv st R S ev evs r :
  inv st R S → causal_from R S (ev :: evs) = true → hub_step st ev r →
  ∃ st1 tr R1 S1,
    r = Ok (st1, tr) ∧ inv st1 R1 S1 ∧ causal_from R1 S1 evs = true ∧
    (∀ c, c ∈ clients st1 ↔
          (c ∈ clients st ∨ ev = Register c) ∧ ev ≠ Unregister c ∧
          ¬ ((∃ m, ev = Broadcast m) ∧ Close c ∈ tr)) ∧
    (∀ c, ev = Unregister c ∨ Close c ∈ tr → c ∈ S1) ∧
    (∀ e, e ∈ tr → effect_client e ∈ clients st).
Proof.
  intros (Hsub & Hwf & Hcl) Hc Hstep.
  destruct Hstep as [st c0|st c0|st m order Hp|st c0]; simpl in Hc.
  - apply andb_true_iff in Hc as [Hd Hc]. apply bool_decide_eq_true in Hd.
    exists (on_register c0 st), [], ({[c0]} ∪ R), S.
    split; [done|]. split; [|split; [done|split; [|split]]].
    + split; [simpl; set_solver|]. split; [|done].
      intros c Hin. change (send_of (on_register c0 st) c) with (send_of st c).
      simpl in Hin. apply elem_of_union in Hin as [Hin|Hin]; [|by apply Hwf].
      apply elem_of_singleton in Hin as ->.
      destruct (ch_closed (send_of st c0)) eqn:E; [|done].
      by apply Hcl in E.
    + intros c. simpl. rewrite elem_of_union, elem_of_singleton. split.
      * intros [->|Hin]; (split; [auto|split; [done|]]); by intros [[m ?] _].
      * intros [[Hin|Heq] _]; [by right|left; congruence].
    + intros c [?|Hin]; [done|by apply elem_of_nil in Hin].
    + intros e He. by apply elem_of_nil in He.
  - destruct (decide (c0 ∈ clients st)) as [Hin|Hnin].
    + rewrite on_unregister_present by auto.
      eexists _, _, R, ({[c0]} ∪ S). split; [done|].
      split; [|split; [done|split; [|split]]].
      * split; [simpl; set_solver|]. split.
        -- intros c Hc'. simpl in Hc'. rewrite send_of_insert.
           rewrite decide_False by set_solver. apply Hwf. set_solver.
        -- intros c. rewrite send_of_insert. case_decide; [set_solver|].
           intros E. apply elem_of_union_r. by apply Hcl.
      * intros c. simpl. rewrite elem_of_difference, elem_of_singleton. split.
        -- intros [Hc' Hne]. split; [by left|]. split; [congruence|].
           by intros [[m ?] _].
        -- intros ([Hc'|?] & Hne & _); [|done]. split; [done|congruence].
      * intros c [Heq|Hc'].
        -- simplify_eq. set_solver.
        -- apply elem_of_cons in Hc' as [?|Hc']; [done|].
           apply list_elem_of_singleton in Hc'. simplify_eq. set_solver.
      * intros e He. apply elem_of_cons in He as [->|He]; [done|].
        apply list_elem_of_singleton in He. by subst.
    + rewrite on_unregister_absent by done.
      exists st, [], R, ({[c0]} ∪ S). split; [done|].
      split; [|split; [done|split; [|split]]].
      * split; [done|]. split; [done|]. intros c E. apply elem_of_union_r. by apply Hcl.
      * intros c. split.
        -- intros Hc'. split; [by left|]. split; [|by intros [[m ?] _]].
           intros ?. simplify_eq. done.
        -- by intros ([?|?] & _ & _).
      * intros c [Heq|Hc']; [simplify_eq; set_solver|by apply elem_of_nil in Hc'].
      * intros e He. by apply elem_of_nil in He.
  - destruct (fanout_registry m st order Hwf Hp) as (st' & Hrun & Hmem & Hch & Hwf').
    destruct (registry_order st order Hp) as [Hnd Hin].
    exists st', (flat_map (deliver_effects m st) order), R, (R ∪ S).
    split; [done|]. split; [|split; [done|split; [|split]]].
    + split; [|split; [done|]].
      * intros c Hc'. apply Hmem in Hc' as [Hc' _]. by apply Hsub.
      * intros c. rewrite Hch. case_decide.
        -- intros _. apply elem_of_union_l. by apply Hsub.
        -- intros E. apply elem_of_union_r. by apply Hcl.
    + intros c. rewrite Hmem, close_logged, Hin. split.
      * intros [Hc' Hr]. split; [by left|]. split; [done|].
        intros [_ [_ Hr']]. congruence.
      * intros ([Hc'|?] & _ & Hne); [|done]. split; [done|].
        destruct (has_room (send_of st c)) eqn:E; [done|].
        exfalso. apply Hne. split; [by exists m|done].
    + intros c [?|Hc']; [done|]. apply close_logged in Hc' as [Hc' _].
      apply elem_of_union_l, Hsub, Hin, Hc'.
    + intros e He. apply Hin. by apply (effect_client_logged m st).
  - exists (on_drain c0 st), [], R, S. split; [done|].
    split; [|split; [done|split; [|split]]].
    + split; [by rewrite on_drain_clients|]. split.
      * intros c. rewrite on_drain_clients, on_drain_closed. apply Hwf.
      * intros c. rewrite on_drain_closed. apply Hcl.
    + intros c. rewrite on_drain_clients. split.
      * intros Hc'. split; [by left|]. split; [done|]. by intros [[m ?] _].
      * by intros ([?|?] & _ & _).
    + intros c [?|Hc']; [done|by apply elem_of_nil in Hc'].
    + intros e He. by apply elem_of_nil in He.
Qed.

(** ** Runs of the dispatch loop *)

(** The executable run is one of the runs the relation allows. *)
Lemma step_hub_step ev st : hub_step st ev (step ev st).
Proof.
  destruct ev as [c|c|m|c]; simpl.
  - apply step_register.
  - apply step_unregister.
  - unfold broadcast. by apply step_broadcast.
  - apply step_drain.
Qed.

Lemma run_hub_run evs : ∀ st, hub_run st evs (run evs st).
Proof.
  induction evs as [|ev evs IH]; intros st; simpl; [constructor|].
  pose proof (step_hub_step ev st) as Hs.
  destruct (step ev st) as [[st1 tr]|]; [|by constructor].
  pose proof (IH st1) as Hr.
  destruct (run evs st1) as [[st2 log]|].
  - by econstructor.
  - by econstructor.
Qed.

Lemma evicted_nil c : ¬ evicted [] c.
Proof. intros (m & tr & Hin & _). by apply elem_of_nil in Hin. Qed.

Lemma evicted_cons ev tr log c :
  evicted ((ev, tr) :: log) c ↔
  ((∃ m, ev = Broadcast m) ∧ Close c ∈ tr) ∨ evicted log c.
Proof.
  unfold evicted. split.
  - intros (m & tr' & Hin & Hc). apply elem_of_cons in Hin as [Heq|Hin].
    + simplify_eq. left. split; [by exists m|done].
    + right. by exists m, tr'.
  - intros [[[m ->] Hc]|(m & tr' & Hin & Hc)].
    + exists m, tr. split; [left|done].
    + exists m, tr'. split; [by right|done].
Qed.

Lemma run_membership evs : ∀ st R S r,
  inv st R S → causal_from R S evs = true → hub_run st evs r →
  ∃ st' log, r = Ok (st', log) ∧ wf st' ∧
    ∀ c, c ∈ clients st' ↔
         (c ∈ clients st ∨ Register c ∈ evs) ∧ (Unregister c ∉ evs) ∧ ¬ evicted log c.
Proof.
  induction evs as [|ev evs IH]; intros st R S r Hinv Hc Hrun.
  - inversion Hrun; subst. exists st, []. split; [done|].
    split; [apply Hinv|]. intros c. split.
    + intros Hin. split; [by left|]. split; [apply not_elem_of_nil|apply evicted_nil].
    + intros ([?|Hin] & _); [done|by apply elem_of_nil in Hin].
  - assert (Hnext : ∀ r1, hub_step st ev r1 →
      ∃ st1 tr R1 S1, r1 = Ok (st1, tr) ∧ inv st1 R1 S1 ∧
        causal_from R1 S1 evs = true ∧
        (∀ c, c ∈ clients st1 ↔
          (c ∈ clients st ∨ ev = Register c) ∧ ev ≠ Unregister c ∧
          ¬ ((∃ m, ev = Broadcast m) ∧ Close c ∈ tr)) ∧
        (∀ c, ev = Unregister c ∨ Close c ∈ tr → c ∈ S1)).
    { intros r1 Hs.
      destruct (hub_step_inv st R S ev evs r1 Hinv Hc Hs)
        as (st1 & tr & R1 & S1 & ? & ? & ? & ? & ? & _).
      by exists st1, tr, R1, S1. }
    inversion Hrun as [|? ? st1 tr ? st2 log Hs Hrest|? ? st1 tr ? Hs Hrest|? ? ? Hs]; subst.
    + destruct (Hnext _ Hs) as (st1' & tr' & R1 & S1 & Heq & Hinv1 & Hc1 & Hmem & Hseal).
      simplify_eq.
      destruct (IH _ _ _ _ Hinv1 Hc1 Hrest) as (st' & log' & Heq & Hwf' & Hmem').
      simplify_eq. eexists _, _. split; [reflexivity|]. split; [done|].
      intros c. rewrite Hmem', Hmem, evicted_cons, !elem_of_cons. split.
      * intros ([Hin|Hreg] & Hun & Hev).
        -- destruct Hin as (Hfrom & Hne & Hnev).
           split; [destruct Hfrom; auto|]. split; [|tauto].
           intros [?|?]; [congruence|done].
        -- assert (c ∉ S1) as Hns.
           { intros Hs1. by apply (causal_from_sealed evs R1 S1 c Hc1 Hs1). }
           split; [auto|]. split.
           ++ intros [?|?]; [|done]. apply Hns, Hseal. left. congruence.
           ++ intros [[_ Hcl]|?]; [|done]. apply Hns, Hseal. by right.
      * intros ([Hin|[Heq|Hreg]] & Hun & Hev).
        -- split; [left|tauto]. split; [by left|]. split; [|tauto].
           intros ?. apply Hun. left. congruence.
        -- split; [left|tauto]. split; [right; congruence|]. split; [|tauto].
           intros ?. apply Hun. left. congruence.
        -- split; [by right|tauto].
    + destruct (Hnext _ Hs) as (st1' & tr' & R1 & S1 & Heq & Hinv1 & Hc1 & _).
      simplify_eq.
      destruct (IH _ _ _ _ Hinv1 Hc1 Hrest) as (st' & log' & Heq & _). done.
    + destruct (Hnext _ Hs) as (st1' & tr' & R1 & S1 & Heq & _). done.
Qed.

(** Every state a causally ordered run reaches keeps the channels of the
    registered clients open: the fan-out never sends on a closed channel. *)
Lemma wf_reachable evs st log :
  causal evs = true → hub_run init evs (Ok (st, log)) → wf st.
Proof.
  intros Hc Hrun.
  destruct (run_membership evs init ∅ ∅ _ inv_init Hc Hrun)
    as (st' & log' & Heq & Hwf & _).
  by simplify_eq.
Qed.

(** ** The two forms of the ordering condition agree *)

Lemma causal_from_spec evs : ∀ R S,
  causal_from R S evs = true ↔
  ∀ pre c post, evs = pre ++ Register c :: post →
    (c ∉ S) ∧ (Unregister c ∉ pre) ∧
    (∀ p1 m p2, pre = p1 ++ Broadcast m :: p2 → (c ∉ R) ∧ (Register c ∉ p1)).
Proof.
  induction evs as [|ev evs IH]; intros R S.
  - split; [|done]. intros _ pre c post Heq. by destruct pre.
  - assert (Hsplit : ∀ (P : list Event → Client → Prop),
      (∀ pre c post, ev :: evs = pre ++ Register c :: post → P pre c) ↔
      (∀ c, ev = Register c → P [] c) ∧
      (∀ pre c post, evs = pre ++ Register c :: post → P (ev :: pre) c)).
    { intros P. split.
      - intros H. split.
        + intros c ->. by apply (H [] c evs).
        + intros pre c post ->. by apply (H (ev :: pre) c post).
      - intros [H1 H2] pre c post Heq. destruct pre as [|e pre]; simplify_eq/=.
        + by apply H1.
        + by eapply H2. }
    rewrite Hsplit. clear Hsplit.
    assert (Hpre : ∀ pre p1 m p2, ev :: pre = p1 ++ Broadcast m :: p2 →
      (p1 = [] ∧ ev = Broadcast m ∧ pre = p2) ∨
      (∃ p1', p1 = ev :: p1' ∧ pre = p1' ++ Broadcast m :: p2)).
    { intros pre p1 m p2 Heq. destruct p1 as [|e p1]; simplify_eq/=; [by left|].
      right. by exists p1. }
    destruct ev as [c0|c0|m0|c0]; simpl.
    + rewrite andb_true_iff, bool_decide_eq_true, IH. split.
      * intros [Hns H]. split.
        -- intros c [= ->]. split; [done|]. split; [apply not_elem_of_nil|].
           intros p1 m p2 Heq. by destruct p1.
        -- intros pre c post Heq. destruct (H pre c post Heq) as (H1 & H2 & H3).
           split; [done|]. split.
           ++ intros Hin. apply elem_of_cons in Hin as [?|?]; done.
           ++ intros p1 m p2 Hp.
              destruct (Hpre _ _ _ _ Hp) as [(_ & ? & _)|(p1' & -> & ->)]; [done|].
              destruct (H3 p1' m p2 eq_refl) as [Hr Hp1].
              split; [set_solver|].
              intros Hin. apply elem_of_cons in Hin as [?|?]; [|done].
              simplify_eq. set_solver.
      * intros [H0 H]. split; [by destruct (H0 c0 eq_refl)|].
        intros pre c post Heq. destruct (H pre c post Heq) as (H1 & H2 & H3).
        split; [done|]. split; [by intros ?; apply H2; right|].
        intros p1 m p2 ->.
        destruct (H3 (Register c0 :: p1) m p2 eq_refl) as [Hr Hp1].
        split; [|by intros ?; apply Hp1; right].
        intros Hin. apply elem_of_union in Hin as [Hin|Hin]; [|done].
        apply elem_of_singleton in Hin as ->. apply Hp1. left.
    + rewrite IH. split.
      * intros H. split; [done|].
        intros pre c post Heq. destruct (H pre c post Heq) as (H1 & H2 & H3).
        split; [set_solver|]. split.
        -- intros Hin. apply elem_of_cons in Hin as [?|?]; [|done].
           simplify_eq. set_solver.
        -- intros p1 m p2 Hp.
           destruct (Hpre _ _ _ _ Hp) as [(_ & ? & _)|(p1' & -> & ->)]; [done|].
           destruct (H3 p1' m p2 eq_refl) as [Hr Hp1]. split; [done|].
           intros Hin. apply elem_of_cons in Hin as [?|?]; done.
      * intros [_ H] pre c post Heq. destruct (H pre c post Heq) as (H1 & H2 & H3).
        split.
        -- intros Hin. apply elem_of_union in Hin as [Hin|Hin]; [|done].
           apply elem_of_singleton in Hin as ->. apply H2. left.
        -- split; [by intros ?; apply H2; right|].
           intros p1 m p2 ->.
           destruct (H3 (Unregister c0 :: p1) m p2 eq_refl) as [Hr Hp1].
           split; [done|]. by intros ?; apply Hp1; right.
    + rewrite IH. split.
      * intros H. split; [done|].
        intros pre c post Heq. destruct (H pre c post Heq) as (H1 & H2 & H3).
        split; [set_solver|]. split.
        -- intros Hin. apply elem_of_cons in Hin as [?|?]; done.
        -- intros p1 m p2 Hp.
           destruct (Hpre _ _ _ _ Hp) as [(-> & ? & ->)|(p1' & -> & ->)].
           ++ split; [set_solver|apply not_elem_of_nil].
           ++ destruct (H3 p1' m p2 eq_refl) as [Hr Hp1]. split; [done|].
              intros Hin. apply elem_of_cons in Hin as [?|?]; done.
      * intros [_ H] pre c post Heq. destruct (H pre c post Heq) as (H1 & H2 & H3).
        split.
        -- intros Hin. apply elem_of_union in Hin as [Hin|Hin]; [|done].
           by destruct (H3 [] m0 pre eq_refl).
        -- split; [by intros ?; apply H2; right|].
           intros p1 m p2 ->.
           destruct (H3 (Broadcast m0 :: p1) m p2 eq_refl) as [Hr Hp1].
           split; [done|]. by intros ?; apply Hp1; right.
    + rewrite IH. split.
      * intros H. split; [done|].
        intros pre c post Heq. destruct (H pre c post Heq) as (H1 & H2 & H3).
        split; [done|]. split.
        -- intros Hin. apply elem_of_cons in Hin as [?|?]; done.
        -- intros p1 m p2 Hp.
           destruct (Hpre _ _ _ _ Hp) as [(_ & ? & _)|(p1' & -> & ->)]; [done|].
           destruct (H3 p1' m p2 eq_refl) as [Hr Hp1]. split; [done|].
           intros Hin. apply elem_of_cons in Hin as [?|?]; done.
      * intros [_ H] pre c post Heq. destruct (H pre c post Heq) as (H1 & H2 & H3).
        split; [done|]. split; [by intros ?; apply H2; right|].
        intros p1 m p2 ->.
        destruct (H3 (Drain c0 :: p1) m p2 eq_refl) as [Hr Hp1].
        split; [done|]. by intros ?; apply Hp1; right.
Qed.

Lemma causal_spec evs : causal evs = true ↔ causally_ordered evs.
Proof.
  unfold causal, causally_ordered. rewrite causal_from_spec. split.
  - intros H pre c post Heq. destruct (H pre c post Heq) as (_ & H2 & H3).
    split; [done|]. intros p1 m p2 Hp. by destruct (H3 p1 m p2 Hp).
  - intros H pre c post Heq. destruct (H pre c post Heq) as (H2 & H3).
    split; [set_solver|]. split; [done|].
    intros p1 m p2 Hp. split; [set_solver|by apply (H3 p1 m p2)].
Qed.

(** ** [Replace] and [TrimSpace] *)

Lemma HasPrefix_spec s : ∀ p, HasPrefix s p = true ↔ p `prefix_of` s.
Proof.
  induction s as [|b s IH]; intros [|q p]; simpl.
  - split; [intros _; apply prefix_nil|done].
  - split; [done|]. intros H. by apply prefix_nil_not in H.
  - split; [intros _; apply prefix_nil|done].
  - rewrite andb_true_iff, IH. split.
    + intros [Hb Hp]. apply Byte.byte_dec_bl in Hb as ->. by apply prefix_cons.
    + intros H. split.
      * apply prefix_cons_inv_1 in H as ->. by apply Byte.byte_dec_lb.
      * by apply prefix_cons_inv_2 in H.
Qed.

Lemma Replace_newline m : Replace m newline space = map newline_to_space m.
Proof.
  change (Replace m newline space) with (replace_from newline space 0 m).
  induction m as [|b m IH]; [done|].
  cbn [replace_from HasPrefix newline space length Nat.sub map].
  rewrite andb_true_r, IH.
  change (newline_to_space b) with (if Byte.eqb b x0a then x20 else b).
  destruct (Byte.eqb b x0a); reflexivity.
Qed.

Lemma newline_to_space_not_newline b : newline_to_space b ≠ x0a.
Proof.
  unfold newline_to_space. destruct (Byte.eqb b x0a) eqn:E; [done|].
  intros ->. discriminate E.
Qed.

Lemma spaceRunes_nonempty e : e ∈ spaceRunes → 0 < length e.
Proof.
  intros H. unfold spaceRunes in H.
  repeat (apply elem_of_cons in H as [->|H]; [simpl; lia|]).
  by apply elem_of_nil in H.
Qed.

Lemma leading_space_Some s e :
  leading_space s = Some e → e ∈ spaceRunes ∧ e `prefix_of` s.
Proof.
  intros H. apply find_some in H as [Hin Hp].
  split; [by apply list_elem_of_In|by apply HasPrefix_spec].
Qed.

Lemma trailing_space_Some s e :
  trailing_space s = Some e → e ∈ spaceRunes ∧ e `suffix_of` s.
Proof.
  intros H. apply find_some in H as [Hin Hp].
  split; [by apply list_elem_of_In|].
  apply HasPrefix_spec in Hp. by apply suffix_prefix_reverse.
Qed.

Lemma leading_space_prefix s s' :
  s' `prefix_of` s → leading_space s = None → leading_space s' = None.
Proof.
  intros Hp Hn. destruct (leading_space s') as [e|] eqn:E; [|done].
  apply find_some in E as [Hin He]. apply HasPrefix_spec in He.
  pose proof (find_none _ _ Hn e Hin) as Hf.
  assert (HasPrefix s e = true) as Ht; [|congruence].
  apply HasPrefix_spec. by etrans.
Qed.

Lemma trim_left_suffix fuel : ∀ s, trim_left fuel s `suffix_of` s.
Proof.
  induction fuel as [|fuel IH]; intros s; simpl; [done|].
  destruct (leading_space s) as [e|]; [|done].
  etrans; [apply IH|apply suffix_drop].
Qed.

Lemma trim_right_prefix fuel : ∀ s, trim_right fuel s `prefix_of` s.
Proof.
  induction fuel as [|fuel IH]; intros s; simpl; [done|].
  destruct (trailing_space s) as [e|]; [|done].
  etrans; [apply IH|apply prefix_take].
Qed.

Lemma trim_left_done fuel : ∀ s,
  length s ≤ fuel → leading_space (trim_left fuel s) = None.
Proof.
  induction fuel as [|fuel IH]; intros s Hlen; simpl.
  - by destruct s; [|simpl in Hlen; lia].
  - destruct (leading_space s) as [e|] eqn:E; [|done].
    apply leading_space_Some in E as [Hin Hp].
    apply spaceRunes_nonempty in Hin. apply prefix_length in Hp.
    apply IH. rewrite length_drop. lia.
Qed.

Lemma trim_right_done fuel : ∀ s,
  length s ≤ fuel → trailing_space (trim_right fuel s) = None.
Proof.
  induction fuel as [|fuel IH]; intros s Hlen; simpl.
  - by destruct s; [|simpl in Hlen; lia].
  - destruct (trailing_space s) as [e|] eqn:E; [|done].
    apply trailing_space_Some in E as [Hin Hp].
    apply spaceRunes_nonempty in Hin. apply suffix_length in Hp.
    apply IH. rewrite length_take. lia.
Qed.

Lemma TrimSpace_elem b s : b ∈ TrimSpace s → b ∈ s.
Proof.
  unfold TrimSpace. intros H.
  eapply elem_of_prefix in H; [|apply trim_right_prefix].
  eapply elem_of_suffix in H; [done|apply trim_left_suffix].
Qed.

Lemma TrimSpace_trimmed s :
  leading_space (TrimSpace s) = None ∧ trailing_space (TrimSpace s) = None.
Proof.
  unfold TrimSpace. split.
  - eapply leading_space_prefix; [apply trim_right_prefix|].
    by apply trim_left_done.
  - by apply trim_right_done.
Qed.

(** ** The read pump *)

Lemma readPump_messages c ms rest :
  readPump c (map ReadOk ms ++ rest) =
  map (λ m, Broadcast (normalize m)) ms ++ readPump c rest.
Proof. induction ms as [|m ms IH]; simpl; [done|]. by rewrite IH. Qed.

(** ** The write pump *)

Lemma coalesce_queued cap closed queued : ∀ w later arrivals,
  coalesce (length queued) w (MkChan cap (queued ++ later) closed) arrivals =
  Some (w ++ flat_map (λ v, newline ++ v) queued,
        MkChan cap (later ++ concat (take (length queued) arrivals)) closed).
Proof.
  induction queued as [|v queued IH]; intros w later arrivals; simpl.
  - by rewrite !app_nil_r.
  - unfold hub_interferes, chan_recv; simpl.
    rewrite <- (app_assoc queued later). rewrite IH.
    f_equal. f_equal.
    + by rewrite <- !app_assoc.
    + f_equal. destruct arrivals as [|a arrivals]; simpl.
      * by rewrite take_nil, !app_nil_r.
      * by rewrite <- app_assoc.
Qed.

Lemma count_newline_frame (m : message) (queued : list message) :
  Forall (λ v, x0a ∉ v) (m :: queued) →
  count_occ byte_eq_dec (m ++ flat_map (λ v, newline ++ v) queued) x0a
  = length queued.
Proof.
  intros H. apply Forall_cons in H as [Hm Hq].
  rewrite count_occ_app.
  rewrite (proj1 (count_occ_not_In byte_eq_dec m x0a)) by (by rewrite <- list_elem_of_In).
  simpl. induction Hq as [|v queued Hv Hq IH]; [done|].
  simpl. rewrite count_occ_app, IH.
  rewrite (proj1 (count_occ_not_In byte_eq_dec v x0a)) by (by rewrite <- list_elem_of_In).
  destruct (byte_eq_dec x0a x0a); [done|done].
Qed.

(** ** Whom the hub acts on *)

Lemma deliver_inv m c st st1 tr :
  deliver m c st = Ok (st1, tr) →
  clients st1 ⊆ clients st ∧ ∀ e, e ∈ tr → effect_client e = c.
Proof.
  unfold deliver, try_send, chan_close.
  destruct (ch_closed (send_of st c)); [done|].
  destruct (has_room (send_of st c)); intros [= <- <-]; simpl.
  - split; [done|]. intros e He. apply list_elem_of_singleton in He. by subst.
  - split; [set_solver|]. intros e He.
    apply elem_of_cons in He as [->|He]; [done|].
    apply list_elem_of_singleton in He. by subst.
Qed.

Lemma fanout_inv m order : ∀ st st' tr,
  fanout m order st = Ok (st', tr) →
  clients st' ⊆ clients st ∧ ∀ e, e ∈ tr → effect_client e ∈ order.
Proof.
  induction order as [|c rest IH]; intros st st' tr; simpl.
  - intros [= <- <-]. split; [done|]. intros e He. by apply elem_of_nil in He.
  - destruct (deliver m c st) as [[st1 tr1]|] eqn:Hd; [|done].
    destruct (fanout m rest st1) as [[st2 tr2]|] eqn:Hf; [|done].
    intros [= <- <-].
    apply deliver_inv in Hd as [Hs1 He1]. apply IH in Hf as [Hs2 He2].
    split; [set_solver|]. intros e He. apply elem_of_app in He as [He|He].
    + apply elem_of_cons. left. by apply He1.
    + apply elem_of_cons. right. by apply He2.
Qed.

Lemma hub_step_effects st ev st1 tr :
  hub_step st ev (Ok (st1, tr)) →
  (∀ e, e ∈ tr → effect_client e ∈ clients st) ∧
  (∀ c, c ∈ clients st1 → c ∈ clients st ∨ ev = Register c).
Proof.
  intros Hs. remember (Ok (st1, tr)) as r eqn:Heq.
  destruct Hs as [st c0|st c0|st m order Hp|st c0].
  - simplify_eq. split; [intros e He; by apply elem_of_nil in He|].
    intros c Hc. simpl in Hc. apply elem_of_union in Hc as [Hc|Hc]; [|by left].
    apply elem_of_singleton in Hc as ->. by right.
  - unfold on_unregister, chan_close in Heq.
    destruct (decide (c0 ∈ clients st)) as [Hin|Hnin].
    + destruct (ch_closed (send_of st c0)); [done|]. simplify_eq/=. split.
      * intros e He. apply elem_of_cons in He as [->|He]; [done|].
        apply list_elem_of_singleton in He. by subst.
      * intros c Hc. left. set_solver.
    + simplify_eq. split; [intros e He; by apply elem_of_nil in He|by left].
  - apply fanout_inv in Heq as [Hsub He]. split.
    + intros e Hin. apply He in Hin. rewrite Hp in Hin. by apply elem_of_elements.
    + intros c Hc. left. by apply Hsub.
  - simplify_eq. split; [intros e He; by apply elem_of_nil in He|].
    intros c Hc. left. by rewrite on_drain_clients in Hc.
Qed.

Lemma hub_run_events evs : ∀ st st' log,
  hub_run st evs (Ok (st', log)) → log.*1 = evs.
Proof.
  induction evs as [|ev evs IH]; intros st st' log Hrun;
    inversion Hrun; subst; [done|].
  simpl. f_equal. by eapply IH.
Qed.

(** The hub acts on a client only while it is registered: any effect in the
    log concerns a client that was in the registry at the start or whose
    registration the hub served earlier in the run. *)
Lemma hub_run_effects evs : ∀ st st' log,
  hub_run st evs (Ok (st', log)) →
  ∀ pre ev tr post e, log = pre ++ (ev, tr) :: post → e ∈ tr →
    effect_client e ∈ clients st ∨ Register (effect_client e) ∈ pre.*1.
Proof.
  induction evs as [|ev0 evs IH]; intros st st' log Hrun pre ev tr post e Hlog He;
    inversion Hrun as [|? ? st1 tr0 ? ? log0 Hs Hrest| |]; subst.
  - by destruct pre.
  - apply hub_step_effects in Hs as [Heff Hreg].
    destruct pre as [|[ev1 tr1] pre]; simplify_eq/=.
    + left. by apply Heff.
    + destruct (IH _ _ _ Hrest pre ev tr post e eq_refl He) as [Hin|Hin].
      * apply Hreg in Hin as [Hin| ->]; [by left|right; left].
      * right. by right.
Qed.

Lemma hub_run_untargeted evs st st' log c :
  hub_run st evs (Ok (st', log)) → c ∉ clients st → Register c ∉ evs →
  ∀ ev tr e, (ev, tr) ∈ log → e ∈ tr → effect_client e ≠ c.
Proof.
  intros Hrun Hc Hreg ev tr e Hin He Heq.
  apply list_elem_of_split in Hin as (pre & post & Hlog).
  destruct (hub_run_effects _ _ _ _ Hrun pre ev tr post e Hlog He) as [H|H].
  - apply Hc. by rewrite <- Heq.
  - apply Hreg. rewrite <- (hub_run_events _ _ _ _ Hrun), Hlog, <- Heq.
    rewrite fmap_app. apply elem_of_app. by left.
Qed.

Lemma flat_map_singletons {A B} (f : A → list B) (g : A → B) (l : list A) :
  (∀ a, a ∈ l → f a = [g a]) → flat_map f l = map g l.
Proof.
  induction l as [|a l IH]; intros H; simpl; [done|].
  rewrite H by left. simpl. f_equal. apply IH. intros b Hb. apply H. by right.
Qed.

(** * The claims *)

(** ** Fan-out *)

(** C1. On a broadcast, a registered client whose outbound queue is at
    capacity is taken out of the registry and its queue is closed exactly
    once; the fan-out completes, the message is not added to the full queue,
    clients with room still get it, and later broadcasts (the next one, and
    any later run in which the client does not register again) do nothing to
    that client. *)
Theorem full_queue_client_evicted m st order c :
  wf st → order ≡ₚ elements (clients st) →
  c ∈ clients st → has_room (send_of st c) = false →
  ∃ st' tr, fanout m order st = Ok (st', tr)
    ∧ (c ∉ clients st')
    ∧ send_of st' c = MkChan (ch_cap (send_of st c)) (ch_buf (send_of st c)) true
    ∧ count_occ Effect_eq_dec tr (Close c) = 1
    ∧ (∀ m', Enqueue c m' ∉ tr)
    ∧ (∀ c', c' ∈ clients st → has_room (send_of st c') = true →
             Enqueue c' m ∈ tr ∧ c' ∈ clients st')
    ∧ (∀ m' order', order' ≡ₚ elements (clients st') →
         ∃ st'' tr', fanout m' order' st' = Ok (st'', tr')
           ∧ ∀ e, e ∈ tr' → effect_client e ≠ c)
    ∧ (∀ evs st2 log, Register c ∉ evs → hub_run st' evs (Ok (st2, log)) →
         ∀ ev tr2 e, (ev, tr2) ∈ log → e ∈ tr2 → effect_client e ≠ c).
Proof.
  intros Hwf Hp Hc Hfull.
  destruct (fanout_registry m st order Hwf Hp) as (st' & Hrun & Hmem & Hch & Hwf').
  destruct (registry_order st order Hp) as [Hnd Hin].
  assert (Hgone : c ∉ clients st').
  { intros H. apply Hmem in H as [_ H]. congruence. }
  exists st', (flat_map (deliver_effects m st) order).
  split; [done|]. split; [done|]. split; [|split; [|split; [|split; [|split]]]].
  - rewrite Hch, decide_True by done. unfold delivered. by rewrite Hfull.
  - apply count_close_logged; [done|by apply Hin|done].
  - intros m' H. apply enqueue_logged in H as (_ & _ & H). congruence.
  - intros c' Hc' Hr. split; [|by apply Hmem].
    apply enqueue_logged. split; [done|]. split; [by apply Hin|done].
  - intros m' order' Hp'.
    destruct (fanout_registry m' st' order' Hwf' Hp') as (st'' & Hrun' & _).
    exists st'', (flat_map (deliver_effects m' st') order'). split; [done|].
    intros e He Heq. apply effect_client_logged in He.
    apply Hgone. rewrite <- Heq. by apply (registry_order st' order' Hp').
  - intros evs st2 log Hreg Hrun2. by apply (hub_run_untargeted evs st' st2 log c).
Qed.

(** C2. A broadcast while every registered client has room enqueues the
    message exactly once per registered client: as many enqueues as there are
    clients, one on each queue, nobody taken out of the registry. The fan-out
    has no notion of the sender, so a registered sender gets its own message
    like everybody else. *)
Theorem broadcast_enqueues_once_per_client m st order :
  wf st → order ≡ₚ elements (clients st) →
  (∀ c, c ∈ clients st → has_room (send_of st c) = true) →
  ∃ st' tr, fanout m order st = Ok (st', tr)
    ∧ tr = map (λ c, Enqueue c m) order
    ∧ length tr = size (clients st)
    ∧ clients st' = clients st
    ∧ (∀ sender, sender ∈ clients st →
         count_occ Effect_eq_dec tr (Enqueue sender m) = 1
         ∧ ch_buf (send_of st' sender) = ch_buf (send_of st sender) ++ [m])
    ∧ (∀ c, c ∉ clients st → send_of st' c = send_of st c).
Proof.
  intros Hwf Hp Hroom.
  destruct (fanout_registry m st order Hwf Hp) as (st' & Hrun & Hmem & Hch & Hwf').
  destruct (registry_order st order Hp) as [Hnd Hin].
  assert (Htr : flat_map (deliver_effects m st) order = map (λ c, Enqueue c m) order).
  { apply flat_map_singletons. intros c Hc. unfold deliver_effects.
    by rewrite Hroom by (by apply Hin). }
  exists st', (flat_map (deliver_effects m st) order).
  split; [done|]. split; [done|]. split; [|split; [|split]].
  - rewrite Htr, length_map, Hp. reflexivity.
  - apply set_eq. intros c. rewrite Hmem. naive_solver.
  - intros c Hc. split.
    + apply count_enqueue_logged; [done|by apply Hin|by apply Hroom].
    + rewrite Hch, decide_True by done. unfold delivered. by rewrite Hroom.
  - intros c Hc. by rewrite Hch, decide_False.
Qed.

(** C10. A client evicted by a broadcast does not receive the message of
    that broadcast: its queue ends up closed with the content it had, nothing
    is enqueued for it (so nothing before its queue is closed), and the
    message goes exactly to the registered clients whose queues had room. *)
Theorem evicted_client_misses_message m st order c :
  wf st → order ≡ₚ elements (clients st) →
  c ∈ clients st → has_room (send_of st c) = false →
  ∃ st' tr, fanout m order st = Ok (st', tr)
    ∧ Close c ∈ tr
    ∧ ch_buf (send_of st' c) = ch_buf (send_of st c)
    ∧ ch_closed (send_of st' c) = true
    ∧ (∀ pre post, tr = pre ++ Close c :: post → ∀ m', Enqueue c m' ∉ pre)
    ∧ (∀ m', Enqueue c m' ∉ tr)
    ∧ (∀ c' m', Enqueue c' m' ∈ tr ↔
                m' = m ∧ c' ∈ clients st ∧ has_room (send_of st c') = true).
Proof.
  intros Hwf Hp Hc Hfull.
  destruct (fanout_registry m st order Hwf Hp) as (st' & Hrun & Hmem & Hch & Hwf').
  destruct (registry_order st order Hp) as [Hnd Hin].
  assert (Hnone : ∀ m', Enqueue c m' ∉ flat_map (deliver_effects m st) order).
  { intros m' H. apply enqueue_logged in H as (_ & _ & H). congruence. }
  exists st', (flat_map (deliver_effects m st) order).
  split; [done|]. split; [|split; [|split; [|split; [|split]]]].
  - apply close_logged. split; [by apply Hin|done].
  - rewrite Hch, decide_True by done. unfold delivered. by rewrite Hfull.
  - rewrite Hch, decide_True by done. unfold delivered. by rewrite Hfull.
  - intros pre post Heq m' H. apply (Hnone m'). rewrite Heq.
    apply elem_of_app. by left.
  - done.
  - intros c' m'. rewrite enqueue_logged, Hin. done.
Qed.

(** C6. Serving a deregistration for a client that is not in the registry,
    in particular a second deregistration right after a first one, changes
    nothing: the step returns the same state, closes nothing and does not
    panic. *)
Theorem unregister_absent_is_noop c st :
  c ∉ clients st ∨ (∃ st0 tr0, on_unregister c st0 = Ok (st, tr0) ∧ c ∈ clients st0) →
  on_unregister c st = Ok (st, []) ∧
  ∀ r, hub_step st (Unregister c) r → r = Ok (st, []).
Proof.
  intros H.
  assert (Habs : c ∉ clients st).
  { destruct H as [H|(st0 & tr0 & H & Hin)]; [done|].
    unfold on_unregister, chan_close in H. rewrite decide_True in H by done.
    destruct (ch_closed (send_of st0 c)); [done|]. simplify_eq/=. set_solver. }
  split; [by apply on_unregister_absent|].
  intros r Hs. inversion Hs; subst. by apply on_unregister_absent.
Qed.

(** ** The registry over a whole run *)

(** C5. For a sequence of register, deregister, broadcast (and write-pump
    receive) events that is causally ordered per client, every run of the
    dispatch loop from the empty hub completes, whatever order each fan-out
    visits the registry in, and the registry then holds exactly the clients
    that were registered, not deregistered and not evicted by a fan-out. *)
Theorem registry_membership_after_run evs :
  causally_ordered evs →
  (∃ r, hub_run init evs r) ∧
  ∀ r, hub_run init evs r →
    ∃ st log, r = Ok (st, log) ∧
      ∀ c, c ∈ clients st ↔
           Register c ∈ evs ∧ (Unregister c ∉ evs) ∧ ¬ evicted log c.
Proof.
  intros Hc. apply causal_spec in Hc. split.
  - exists (run evs init). apply run_hub_run.
  - intros r Hrun.
    destruct (run_membership evs init ∅ ∅ r inv_init Hc Hrun)
      as (st & log & Heq & _ & Hmem).
    exists st, log. split; [done|]. intros c. rewrite Hmem.
    split; [|tauto]. intros [[H|H] ?]; [|tauto]. by apply not_elem_of_empty in H.
Qed.

(** ** The pumps *)

Lemma trim_left_id fuel s : leading_space s = None → trim_left fuel s = s.
Proof. intros H. destruct fuel; simpl; [done|]. by rewrite H. Qed.

Lemma trim_right_id fuel s : trailing_space s = None → trim_right fuel s = s.
Proof. intros H. destruct fuel; simpl; [done|]. by rewrite H. Qed.

(** C3, as the code has it. For every inbound message the read pump sends
    the hub exactly one broadcast request, and a read error ends the pump
    with one deregistration. The payload is the message with every newline
    byte replaced by one space, one for one, and all leading and trailing
    white space then sliced off: it holds no newline byte, neither starts nor
    ends with white space, and when there is nothing to slice off it is the
    byte-for-byte substitution, so a run of k newlines gives k spaces. *)
Theorem readPump_publishes_normalized c m ms :
  readPump c [ReadOk m] = [Broadcast (normalize m)]
  ∧ readPump c (map ReadOk ms ++ [ReadErr])
    = map (λ m, Broadcast (normalize m)) ms ++ [Unregister c]
  ∧ normalize m = TrimSpace (map newline_to_space m)
  ∧ (x0a ∉ normalize m)
  ∧ leading_space (normalize m) = None
  ∧ trailing_space (normalize m) = None
  ∧ (leading_space (map newline_to_space m) = None →
     trailing_space (map newline_to_space m) = None →
     normalize m = map newline_to_space m).
Proof.
  assert (Hn : normalize m = TrimSpace (map newline_to_space m)).
  { unfold normalize. by rewrite Replace_newline. }
  split; [done|]. split; [by rewrite readPump_messages|]. split; [done|].
  split; [|split; [|split]].
  - rewrite Hn. intros H. apply TrimSpace_elem in H.
    apply list_elem_of_fmap in H as (b & Hb & _).
    symmetry in Hb. by apply newline_to_space_not_newline in Hb.
  - apply TrimSpace_trimmed.
  - apply TrimSpace_trimmed.
  - intros Hl Ht. rewrite Hn. unfold TrimSpace.
    rewrite (trim_left_id _ _ Hl). by apply trim_right_id.
Qed.

(** C7. When the write pump receives a message while [queued] further
    messages sit in the channel, the one frame it writes is that message
    followed by each queued message in queue order, each preceded by one
    newline, whatever the hub enqueues in the meantime; what arrived during
    the loop stays in the channel. The messages holding no newline of their
    own, the frame has exactly [length queued] delimiters, that is
    [length queued + 1] messages. *)
Theorem writePump_coalesces_queued cap closed m queued arrivals :
  writePump_send (MkChan cap (m :: queued) closed) arrivals =
    Some (TextMessage (m ++ flat_map (λ v, newline ++ v) queued),
          MkChan cap (concat (take (length queued) arrivals)) closed)
  ∧ (Forall (λ v, x0a ∉ v) (m :: queued) →
     count_occ byte_eq_dec (m ++ flat_map (λ v, newline ++ v) queued) x0a
     = length queued).
Proof.
  split; [|apply count_newline_frame].
  unfold writePump_send, chan_recv. simpl.
  pose proof (coalesce_queued cap closed queued m [] arrivals) as H.
  rewrite app_nil_r in H. simpl in H. by rewrite H.
Qed.

(** C8. The ping period is nine tenths of the pong wait, with no rounding
    and inside the range of a duration, and so strictly below it: 54 s
    against 60 s. *)
Theorem pingPeriod_before_pongWait :
  (pingPeriod < pongWait)%Z
  ∧ (10 * pingPeriod = 9 * pongWait)%Z
  ∧ Z.rem (pongWait * 9) 10 = 0%Z
  ∧ pingPeriod = (54 * time.Second)%Z
  ∧ (0 < pingPeriod)%Z
  ∧ time.representable (pongWait * 9) = true
  ∧ time.representable pingPeriod = true.
Proof. repeat split; reflexivity. Qed.

(** ** The hub's own channels *)

(** C4, as the code has it. The register, unregister and broadcast channels
    are made without a buffer. A blocking send into one of them is never
    refused (the channels are open, nothing is dropped), but it completes
    only when the dispatch loop is ready to receive; otherwise the sender
    waits. *)
Theorem hub_channels_unbuffered :
  ch_cap (hub_register newHub) = 0
  ∧ ch_cap (hub_unregister newHub) = 0
  ∧ ch_cap (hub_broadcast newHub) = 0
  ∧ ∀ hub_ready,
      blocking_send_status (hub_register newHub) hub_ready
        = (if hub_ready then Completes else Blocks)
      ∧ blocking_send_status (hub_unregister newHub) hub_ready
        = (if hub_ready then Completes else Blocks)
      ∧ blocking_send_status (hub_broadcast newHub) hub_ready
        = (if hub_ready then Completes else Blocks).
Proof. repeat split; by destruct hub_ready. Qed.

(** ** The connection entry point *)

(** C9. On a successful upgrade [serveWs] sends the registration before it
    starts either pump, with nothing in between; on a failed upgrade it makes
    no client, registers nothing and starts no pump. On the hub's side, what
    the dispatch loop does to a client in any run from the empty hub comes
    after it served that client's registration. *)
Theorem serveWs_registers_before_pumps {Conn} (conn : Conn) (fresh : Client) :
  let acts := serveWs (Upgraded conn) fresh in
  (∀ i j, acts !! i = Some (SendRegister fresh) →
          is_pump <$> acts !! j = Some true → i < j)
  ∧ position is_register acts = Some 1
  ∧ acts !! 2 = Some (GoWritePump fresh)
  ∧ acts !! 3 = Some (GoReadPump fresh)
  ∧ length acts = 4
  ∧ (∀ a, a ∈ serveWs (@UpgradeError Conn) fresh →
          is_new_client a = false ∧ is_register a = false ∧ is_pump a = false)
  ∧ (∀ evs st log, hub_run init evs (Ok (st, log)) →
       ∀ pre ev tr post e, log = pre ++ (ev, tr) :: post → e ∈ tr →
         Register (effect_client e) ∈ pre.*1).
Proof.
  simpl. split; [|split; [done|split; [done|split; [done|split; [done|split]]]]].
  - intros i j Hi Hj.
    destruct i as [|[|[|[|i]]]]; simplify_eq/=.
    destruct j as [|[|[|[|j]]]]; simplify_eq/=; lia.
  - intros a Ha. apply list_elem_of_singleton in Ha. by subst.
  - intros evs st log Hrun pre ev tr post e Hlog He.
    destruct (hub_run_effects _ _ _ _ Hrun pre ev tr post e Hlog He) as [H|H]; [|done].
    by apply not_elem_of_empty in H.
Qed.

(** * The claims on sample inputs *)

(** C1 on [one_stalled]: a broadcast evicts client 2. *)
Lemma full_queue_client_evicted_witness :
  has_room (send_of one_stalled 2%positive) = false ∧
  ∃ st' tr, fanout [x62] (elements (clients one_stalled)) one_stalled = Ok (st', tr)
    ∧ (2%positive ∉ clients st')
    ∧ send_of st' 2%positive
      = MkChan (ch_cap (send_of one_stalled 2%positive))
               (ch_buf (send_of one_stalled 2%positive)) true
    ∧ count_occ Effect_eq_dec tr (Close 2%positive) = 1
    ∧ (∀ m', Enqueue 2%positive m' ∉ tr)
    ∧ (∀ c', c' ∈ clients one_stalled → has_room (send_of one_stalled c') = true →
             Enqueue c' [x62] ∈ tr ∧ c' ∈ clients st')
    ∧ (∀ m' order', order' ≡ₚ elements (clients st') →
         ∃ st'' tr', fanout m' order' st' = Ok (st'', tr')
           ∧ ∀ e, e ∈ tr' → effect_client e ≠ 2%positive)
    ∧ (∀ evs st2 log, Register 2%positive ∉ evs → hub_run st' evs (Ok (st2, log)) →
         ∀ ev tr2 e, (ev, tr2) ∈ log → e ∈ tr2 → effect_client e ≠ 2%positive).
Proof.
  split; [vm_compute; reflexivity|].
  apply (full_queue_client_evicted [x62] one_stalled
           (elements (clients one_stalled)) 2%positive).
  - apply wfb_wf. vm_compute. reflexivity.
  - reflexivity.
  - unfold one_stalled. simpl. set_solver.
  - vm_compute. reflexivity.
Defined.

(** C2 on [three_idle]: three clients, three enqueues. *)
Lemma broadcast_enqueues_once_per_client_witness :
  ∃ st' tr, fanout [x62] (elements (clients three_idle)) three_idle = Ok (st', tr)
    ∧ tr = map (λ c, Enqueue c [x62]) (elements (clients three_idle))
    ∧ length tr = size (clients three_idle)
    ∧ clients st' = clients three_idle
    ∧ (∀ sender, sender ∈ clients three_idle →
         count_occ Effect_eq_dec tr (Enqueue sender [x62]) = 1
         ∧ ch_buf (send_of st' sender) = ch_buf (send_of three_idle sender) ++ [[x62]])
    ∧ (∀ c, c ∉ clients three_idle → send_of st' c = send_of three_idle c).
Proof.
  apply (broadcast_enqueues_once_per_client [x62] three_idle
           (elements (clients three_idle))).
  - apply wfb_wf. vm_compute. reflexivity.
  - reflexivity.
  - intros c _. reflexivity.
Defined.

(** C10 on [one_stalled]: client 2 is closed without the message. *)
Lemma evicted_client_misses_message_witness :
  ∃ st' tr, fanout [x62] (elements (clients one_stalled)) one_stalled = Ok (st', tr)
    ∧ Close 2%positive ∈ tr
    ∧ ch_buf (send_of st' 2%positive) = ch_buf (send_of one_stalled 2%positive)
    ∧ ch_closed (send_of st' 2%positive) = true
    ∧ (∀ pre post, tr = pre ++ Close 2%positive :: post →
         ∀ m', Enqueue 2%positive m' ∉ pre)
    ∧ (∀ m', Enqueue 2%positive m' ∉ tr)
    ∧ (∀ c' m', Enqueue c' m' ∈ tr ↔
                m' = [x62] ∧ c' ∈ clients one_stalled
                ∧ has_room (send_of one_stalled c') = true).
Proof.
  apply (evicted_client_misses_message [x62] one_stalled
           (elements (clients one_stalled)) 2%positive).
  - apply wfb_wf. vm_compute. reflexivity.
  - reflexivity.
  - unfold one_stalled. simpl. set_solver.
  - vm_compute. reflexivity.
Defined.

(** C6 on the state a first deregistration of client 1 leaves behind. *)
Lemma unregister_absent_is_noop_witness :
  on_unregister 1%positive (on_register 1%positive init)
    = Ok (after_unregister, [Delete 1%positive; Close 1%positive])
  ∧ on_unregister 1%positive after_unregister = Ok (after_unregister, [])
  ∧ ∀ r, hub_step after_unregister (Unregister 1%positive) r →
         r = Ok (after_unregister, []).
Proof.
  assert (H : on_unregister 1%positive (on_register 1%positive init)
              = Ok (after_unregister, [Delete 1%positive; Close 1%positive])).
  { rewrite on_unregister_present; [reflexivity| |reflexivity].
    simpl. set_solver. }
  split; [exact H|].
  apply (unregister_absent_is_noop 1%positive after_unregister).
  right. exists (on_register 1%positive init), [Delete 1%positive; Close 1%positive].
  split; [exact H|]. simpl. set_solver.
Defined.

(** C5 on [busy_session]: client 1 deregistered, client 2 evicted. *)
Lemma registry_membership_after_run_witness :
  causally_ordered busy_session ∧
  (∃ r, hub_run init busy_session r) ∧
  ∀ r, hub_run init busy_session r →
    ∃ st log, r = Ok (st, log) ∧
      ∀ c, c ∈ clients st ↔
           Register c ∈ busy_session ∧ (Unregister c ∉ busy_session)
           ∧ ¬ evicted log c.
Proof.
  assert (H : causally_ordered busy_session).
  { apply causal_spec. vm_compute. reflexivity. }
  split; [exact H|].
  apply (registry_membership_after_run busy_session H).
Defined.

(** The run of [busy_session] with each fan-out walking [elements]: both
    clients are gone at the end, client 2 by eviction in the last fan-out,
    which still reached client 1. *)
Example busy_session_run :
  ∃ st log, run busy_session init = Ok (st, log)
    ∧ elements (clients st) = []
    ∧ log !! 259 = Some (Broadcast [x62],
                         [Close 2%positive; Delete 2%positive;
                          Enqueue 1%positive [x62]])
    ∧ ch_closed (send_of st 2%positive) = true
    ∧ length (ch_buf (send_of st 2%positive)) = 256.
Proof.
  destruct (run busy_session init) as [[st log]|] eqn:E; [|vm_compute in E; discriminate E].
  exists st, log. split; [reflexivity|].
  assert (H : run busy_session init = Ok (st, log)) by exact E.
  clear E. vm_compute in H. injection H as <- <-.
  repeat split; vm_compute; reflexivity.
Qed.

(** C3 on ["a\n\nb"]: nothing to slice off, two spaces inside. *)
Lemma readPump_publishes_normalized_witness :
  leading_space (map newline_to_space two_newlines) = None
  ∧ trailing_space (map newline_to_space two_newlines) = None
  ∧ normalize two_newlines = map newline_to_space two_newlines
  ∧ normalize two_newlines = [x61; x20; x20; x62].
Proof.
  split; [reflexivity|]. split; [reflexivity|]. split; [|reflexivity].
  apply (readPump_publishes_normalized 1%positive two_newlines []); reflexivity.
Defined.

(** C7 on a queue of three messages, one more arriving during the loop. *)
Lemma writePump_coalesces_queued_witness :
  Forall (λ v, x0a ∉ v) [[x61]; [x62]; [x63]] ∧
  count_occ byte_eq_dec ([x61] ++ flat_map (λ v, newline ++ v) [[x62]; [x63]]) x0a = 2.
Proof.
  assert (H : Forall (λ v : list byte, x0a ∉ v) [[x61]; [x62]; [x63]]).
  { repeat constructor; intros H; apply list_elem_of_singleton in H; discriminate H. }
  split; [exact H|].
  apply (writePump_coalesces_queued sendCap false [x61] [[x62]; [x63]] [[[x64]]]).
  exact H.
Defined.

(** C9 on [busy_session]: every effect follows the client's registration. *)
Lemma serveWs_registers_before_pumps_witness :
  ∃ st log, run busy_session init = Ok (st, log) ∧
    ∀ pre ev tr post e, log = pre ++ (ev, tr) :: post → e ∈ tr →
      Register (effect_client e) ∈ pre.*1.
Proof.
  pose proof (run_hub_run busy_session init) as Hrun.
  destruct (run busy_session init) as [[st log]|] eqn:E; [|vm_compute in E; discriminate E].
  exists st, log. split; [reflexivity|].
  destruct (serveWs_registers_before_pumps tt 1%positive) as (_ & _ & _ & _ & _ & _ & H).
  apply (H busy_session st log Hrun).
Defined.

(** * Where the specification's wording departs from the code *)

(** C3 as worded: a run of newlines would become a single delimiter. The
    read pump turns ["a\n\nb"] into ["a  b"], with two spaces, where the
    collapsed form is ["a b"]. *)
Lemma newline_runs_not_collapsed :
  readPump 1%positive [ReadOk two_newlines] = [Broadcast [x61; x20; x20; x62]]
  ∧ spec_normalize two_newlines = [x61; x20; x62]
  ∧ readPump 1%positive [ReadOk two_newlines]
    ≠ [Broadcast (spec_normalize two_newlines)].
Proof. split; [reflexivity|]. split; [reflexivity|]. discriminate. Qed.

(** C4 as worded: a send into the hub's channels would never wait. The
    register channel of a new hub has no room at all, and a send made while
    the dispatch loop is not at its receive waits. *)
Lemma hub_send_waits_for_hub :
  has_room (hub_register newHub) = false
  ∧ blocking_send_status (hub_register newHub) false = Blocks
  ∧ blocking_send_status (hub_unregister newHub) false = Blocks
  ∧ blocking_send_status (hub_broadcast newHub) false = Blocks.
Proof. repeat split. Qed.

(** * Further properties of the code *)

(** ** Normalisation in readPump *)

Lemma normalize_TrimSpace m : normalize m = TrimSpace (map newline_to_space m).
Proof. unfold normalize. by rewrite Replace_newline. Qed.

Lemma normalize_no_newline m : x0a ∉ normalize m.
Proof.
  rewrite normalize_TrimSpace. intros H. apply TrimSpace_elem in H.
  apply list_elem_of_fmap in H as (b & Hb & _).
  symmetry in Hb. by apply newline_to_space_not_newline in Hb.
Qed.

Lemma newline_to_space_id s : x0a ∉ s → map newline_to_space s = s.
Proof.
  induction s as [|b s IH]; intros H; [done|]. simpl.
  rewrite IH by (intros ?; apply H; by right). f_equal.
  unfold newline_to_space. destruct (Byte.eqb b x0a) eqn:E; [|done].
  apply Byte.byte_dec_bl in E as ->. exfalso. apply H. left.
Qed.

Lemma TrimSpace_id s :
  leading_space s = None → trailing_space s = None → TrimSpace s = s.
Proof.
  intros Hl Ht. unfold TrimSpace. rewrite (trim_left_id _ _ Hl).
  by apply trim_right_id.
Qed.

Lemma TrimSpace_length s : length (TrimSpace s) ≤ length s.
Proof.
  unfold TrimSpace.
  pose proof (prefix_length _ _ (trim_right_prefix
    (length (trim_left (length s) s)) (trim_left (length s) s))).
  pose proof (suffix_length _ _ (trim_left_suffix (length s) s)). lia.
Qed.

(** X1. Normalising twice changes nothing more: a payload the read pump
    published passes through the normalisation unchanged. *)
Theorem normalize_idempotent m : normalize (normalize m) = normalize m.
Proof.
  rewrite (normalize_TrimSpace (normalize m)).
  rewrite newline_to_space_id by apply normalize_no_newline.
  rewrite normalize_TrimSpace.
  apply TrimSpace_id; apply TrimSpace_trimmed.
Qed.

(** X2. The normalisation never lengthens a message, and every payload the
    read pump hands to the hub from a connection with the read limit set is
    at most [maxMessageSize] bytes long. *)
Theorem published_payload_bounded c inbound p :
  (∀ m, length (normalize m) ≤ length m)
  ∧ (Broadcast p ∈ readPump_conn c inbound →
     (Z.of_nat (length p) ≤ maxMessageSize)%Z).
Proof.
  assert (Hlen : ∀ m, length (normalize m) ≤ length m).
  { intros m. rewrite normalize_TrimSpace.
    etrans; [apply TrimSpace_length|]. by rewrite length_map. }
  split; [done|]. unfold readPump_conn.
  induction inbound as [|i inbound IH]; simpl; [intros H; by apply elem_of_nil in H|].
  destruct i as [q|]; simpl.
  - destruct (Z.of_nat (length q) <=? maxMessageSize)%Z eqn:E.
    + intros H. apply elem_of_cons in H as [H|H]; [|by apply IH].
      injection H as ->. apply Z.leb_le in E. specialize (Hlen q). lia.
    + intros H. apply list_elem_of_singleton in H. discriminate H.
  - intros H. apply list_elem_of_singleton in H. discriminate H.
Qed.

Lemma leading_space_ascii b t :
  asciiSpace b = true → leading_space (b :: t) = Some [b].
Proof. destruct b; intros H; try discriminate H; reflexivity. Qed.

Lemma trim_left_blank fuel : ∀ s,
  length s ≤ fuel → forallb asciiSpace s = true → trim_left fuel s = [].
Proof.
  induction fuel as [|fuel IH]; intros s Hlen Hs.
  - by destruct s; [|simpl in Hlen; lia].
  - destruct s as [|b t]; [done|]. simpl in Hs.
    apply andb_true_iff in Hs as [Hb Ht].
    cbn [trim_left]. rewrite (leading_space_ascii b t Hb). simpl.
    rewrite drop_0. apply IH; [simpl in Hlen; lia|done].
Qed.

Lemma newline_to_space_blank s :
  forallb asciiSpace s = true → forallb asciiSpace (map newline_to_space s) = true.
Proof.
  induction s as [|b s IH]; [done|]. simpl. rewrite !andb_true_iff.
  intros [Hb Hs]. split; [|by apply IH].
  by destruct b; try discriminate Hb.
Qed.

(** X3. A message made of ASCII white space only (blanks, tabs, newlines) is
    not filtered out: the read pump still publishes it, with an empty
    payload. *)
Theorem blank_message_published_empty c m :
  forallb asciiSpace m = true →
  normalize m = [] ∧ readPump c [ReadOk m] = [Broadcast []].
Proof.
  intros H.
  assert (Hn : normalize m = []).
  { rewrite normalize_TrimSpace. unfold TrimSpace.
    rewrite trim_left_blank; [done|done|by apply newline_to_space_blank]. }
  split; [done|]. simpl. by rewrite Hn.
Qed.

(** X4. Whatever the connection returns, the read pump's requests are one
    broadcast per message read before the first error and, if an error
    occurred, one final deregistration of its own client; what the connection
    would return after the error is never read. *)
Theorem readPump_stops_at_first_error c reads :
  (∃ ms, reads = map ReadOk ms
         ∧ readPump c reads = map (λ m, Broadcast (normalize m)) ms)
  ∨ (∃ ms rest, reads = map ReadOk ms ++ ReadErr :: rest
         ∧ readPump c reads
           = map (λ m, Broadcast (normalize m)) ms ++ [Unregister c]).
Proof.
  induction reads as [|r reads IH].
  - left. by exists [].
  - destruct r as [m|].
    + destruct IH as [(ms & -> & H)|(ms & rest & -> & H)].
      * left. exists (m :: ms). simpl. by rewrite H.
      * right. exists (m :: ms), rest. simpl. by rewrite H.
    + right. by exists [], reads.
Qed.

(** X5. A frame longer than [maxMessageSize] ends the read pump like a
    transport error: the messages before it are published, the oversized one
    and everything after it are not, and the client is deregistered. *)
Theorem oversized_frame_ends_readPump c ms big rest :
  Forall (λ m, (Z.of_nat (length m) ≤ maxMessageSize)%Z) ms →
  (maxMessageSize < Z.of_nat (length big))%Z →
  readPump_conn c (map Frame ms ++ Frame big :: rest)
  = map (λ m, Broadcast (normalize m)) ms ++ [Unregister c].
Proof.
  intros Hms Hbig. unfold readPump_conn.
  induction Hms as [|m ms Hm Hms IH]; simpl.
  - by rewrite (proj2 (Z.leb_gt _ _) Hbig).
  - rewrite (proj2 (Z.leb_le _ _) Hm). by rewrite IH.
Qed.

(** ** The fan-out and the order of the map iteration *)

(** X6. The outcome of a fan-out does not depend on the order in which Go
    walks the registry: any two orders end in the same state, and log the
    same effects up to their order. *)
Theorem fanout_order_independent m st order1 order2 :
  wf st →
  order1 ≡ₚ elements (clients st) → order2 ≡ₚ elements (clients st) →
  ∃ st' tr1 tr2,
    fanout m order1 st = Ok (st', tr1) ∧ fanout m order2 st = Ok (st', tr2)
    ∧ tr1 ≡ₚ tr2.
Proof.
  intros Hwf Hp1 Hp2.
  destruct (registry_order st order1 Hp1) as [Hnd1 Hin1].
  destruct (registry_order st order2 Hp2) as [Hnd2 Hin2].
  destruct (fanout_spec m order1 st Hnd1) as (st1 & Hrun1 & Hcl1 & Hsd1).
  { intros c Hc. apply Hwf, Hin1, Hc. }
  destruct (fanout_spec m order2 st Hnd2) as (st2 & Hrun2 & Hcl2 & Hsd2).
  { intros c Hc. apply Hwf, Hin2, Hc. }
  assert (st2 = st1) as ->.
  { destruct st1 as [s1 h1], st2 as [s2 h2]. simpl in *. f_equal.
    - apply set_eq. intros c. rewrite Hcl1, Hcl2, Hin1, Hin2. done.
    - apply map_eq. intros c. rewrite Hsd1, Hsd2.
      destruct (decide (c ∈ order1)) as [H1|H1], (decide (c ∈ order2)) as [H2|H2];
        try done; exfalso.
      + apply H2, Hin2, Hin1, H1.
      + apply H1, Hin1, Hin2, H2. }
  exists st1, (flat_map (deliver_effects m st) order1),
    (flat_map (deliver_effects m st) order2).
  split; [done|]. split; [done|].
  apply Permutation_flat_map. by rewrite Hp1, Hp2.
Qed.

(** ** Channels the hub has closed *)

Lemma deliver_other m c st st1 tr c' :
  deliver m c st = Ok (st1, tr) → c' ≠ c → send_of st1 c' = send_of st c'.
Proof.
  unfold deliver, try_send, chan_close.
  destruct (ch_closed (send_of st c)); [done|].
  destruct (has_room (send_of st c)); intros [= <- <-] Hne;
    rewrite send_of_insert; by rewrite decide_False.
Qed.

Lemma fanout_other m order : ∀ st st' tr c,
  fanout m order st = Ok (st', tr) → c ∉ order → send_of st' c = send_of st c.
Proof.
  induction order as [|c0 rest IH]; intros st st' tr c; simpl.
  - by intros [= <- <-].
  - destruct (deliver m c0 st) as [[st1 tr1]|] eqn:Hd; [|done].
    destruct (fanout m rest st1) as [[st2 tr2]|] eqn:Hf; [|done].
    intros [= <- <-] Hc.
    rewrite (IH _ _ _ c Hf) by (intros ?; apply Hc; by right).
    apply (deliver_other _ _ _ _ _ _ Hd). intros ->. apply Hc. left.
Qed.

Lemma fanout_closed_panics m order : ∀ st c,
  c ∈ order → ch_closed (send_of st c) = true → fanout m order st = Panic.
Proof.
  induction order as [|c0 rest IH]; intros st c Hc Hcl; [by apply elem_of_nil in Hc|].
  simpl. destruct (decide (c = c0)) as [->|Hne].
  - unfold deliver, try_send. by rewrite Hcl.
  - destruct (deliver m c0 st) as [[st1 tr1]|] eqn:Hd; [|done].
    rewrite (IH st1 c); [done| |].
    + apply elem_of_cons in Hc as [?|?]; done.
    + by rewrite (deliver_other _ _ _ _ _ _ Hd).
Qed.

(** X7. A registered client whose channel is closed brings the hub down:
    every broadcast panics (send on a closed channel), in whatever order the
    registry is walked, and so does the client's deregistration (close of a
    closed channel). *)
Theorem closed_registered_client_panics st c :
  c ∈ clients st → ch_closed (send_of st c) = true →
  (∀ m r, hub_step st (Broadcast m) r → r = Panic)
  ∧ on_unregister c st = Panic.
Proof.
  intros Hc Hcl. split.
  - intros m r Hs. inversion Hs as [| |? ? order Hp|]; subst.
    apply (fanout_closed_panics m order st c); [|done].
    rewrite Hp. by apply elem_of_elements.
  - unfold on_unregister, chan_close. rewrite decide_True by done. by rewrite Hcl.
Qed.

Lemma hub_run_cons_inv st ev evs r :
  hub_run st (ev :: evs) r →
  ∃ r1, hub_step st ev r1 ∧
    match r1 with
    | Panic => r = Panic
    | Ok (st1, tr) =>
        ∃ r2, hub_run st1 evs r2 ∧
          r = match r2 with
              | Ok (st2, log) => Ok (st2, (ev, tr) :: log)
              | Panic => Panic
              end
    end.
Proof.
  intros H. inversion H as [|? ? st1 tr ? st2 log Hs Hr|? ? st1 tr ? Hs Hr|? ? ? Hs]; subst.
  - exists (Ok (st1, tr)). split; [done|]. by exists (Ok (st2, log)).
  - exists (Ok (st1, tr)). split; [done|]. by exists Panic.
  - by exists Panic.
Qed.

(** X8. A client object must not be registered again once the hub has
    deregistered it: the hub accepts the second registration, and the next
    broadcast panics. *)
Theorem reregistration_panics st c m r :
  wf st → c ∈ clients st →
  hub_run st [Unregister c; Register c; Broadcast m] r → r = Panic.
Proof.
  intros Hwf Hc Hrun.
  apply hub_run_cons_inv in Hrun as (r1 & Hs1 & Hrun).
  inversion Hs1; subst. rewrite on_unregister_present in Hrun by auto.
  destruct Hrun as (r2 & Hrun & ->).
  apply hub_run_cons_inv in Hrun as (r3 & Hs2 & Hrun).
  inversion Hs2; subst. destruct Hrun as (r4 & Hrun & ->).
  apply hub_run_cons_inv in Hrun as (r5 & Hs3 & Hrun).
  assert (r5 = Panic) as ->.
  { eapply (closed_registered_client_panics _ c); [| |exact Hs3].
    - simpl. set_solver.
    - change (send_of (on_register c ?s) c) with (send_of s c).
      rewrite send_of_insert. by rewrite decide_True. }
  by subst.
Qed.

(** X9. Once the hub has closed a client's channel, no later step that
    completes does anything to that client: the channel stays closed, nothing
    is enqueued (the write pump can only take pending messages out), and the
    step logs no effect for the client. *)
Theorem closed_channel_left_alone st ev st' tr c :
  hub_step st ev (Ok (st', tr)) → ch_closed (send_of st c) = true →
  ch_closed (send_of st' c) = true
  ∧ ch_buf (send_of st' c) `suffix_of` ch_buf (send_of st c)
  ∧ ch_cap (send_of st' c) = ch_cap (send_of st c)
  ∧ ∀ e, e ∈ tr → effect_client e ≠ c.
Proof.
  intros Hs Hcl. remember (Ok (st', tr)) as r eqn:Heq.
  destruct Hs as [st c0|st c0|st m order Hp|st c0].
  - simplify_eq. change (send_of (on_register c0 st) c) with (send_of st c).
    repeat split; [done|done|]. intros e He. by apply elem_of_nil in He.
  - unfold on_unregister, chan_close in Heq.
    destruct (decide (c0 ∈ clients st)) as [Hin|Hnin].
    + destruct (ch_closed (send_of st c0)) eqn:E; [done|]. simplify_eq/=.
      assert (c0 ≠ c) by (intros ->; congruence).
      rewrite send_of_insert, decide_False by done.
      repeat split; [done|done|]. intros e He.
      apply elem_of_cons in He as [->|He]; [done|].
      apply list_elem_of_singleton in He. by subst.
    + simplify_eq. repeat split; [done|done|].
      intros e He. by apply elem_of_nil in He.
  - assert (Hno : c ∉ order).
    { intros Hc. by rewrite (fanout_closed_panics m order st c Hc Hcl) in Heq. }
    rewrite (fanout_other _ _ _ _ _ c Heq Hno).
    repeat split; [done|done|].
    intros e He <-. apply fanout_inv in Heq as [_ Heff]. by apply Hno, Heff.
  - simplify_eq. rewrite on_drain_closed. split; [done|].
    split; [|split; [|intros e He; by apply elem_of_nil in He]].
    + unfold on_drain, chan_recv.
      destruct (ch_buf (send_of st c0)) as [|v rest] eqn:Hbuf.
      * destruct (ch_closed (send_of st c0)); [|done].
        rewrite send_of_insert. case_decide; by subst.
      * rewrite send_of_insert. case_decide; [|done]. subst. simpl.
        rewrite Hbuf. by apply suffix_cons_r.
    + unfold on_drain, chan_recv.
      destruct (ch_buf (send_of st c0)) as [|v rest] eqn:Hbuf.
      * destruct (ch_closed (send_of st c0)); [|done].
        rewrite send_of_insert. case_decide; by subst.
      * rewrite send_of_insert. case_decide; [|done]. by subst.
Qed.

(** ** What a client's queue holds after a series of broadcasts *)

Lemma hub_step_broadcast_wf st m r :
  wf st → hub_step st (Broadcast m) r →
  ∃ st' tr, r = Ok (st', tr) ∧ wf st'
    ∧ (∀ c, c ∈ clients st' ↔ c ∈ clients st ∧ has_room (send_of st c) = true)
    ∧ (∀ c, send_of st' c =
            if decide (c ∈ clients st) then delivered m (send_of st c)
            else send_of st c).
Proof.
  intros Hwf Hs. inversion Hs as [| |? ? order Hp|]; subst.
  destruct (fanout_registry m st order Hwf Hp) as (st' & Hrun & Hmem & Hch & Hwf').
  by exists st', (flat_map (deliver_effects m st) order).
Qed.

Lemma broadcasts_skip_absent ms : ∀ st c r,
  wf st → c ∉ clients st → hub_run st (map Broadcast ms) r →
  ∃ st' log, r = Ok (st', log) ∧ (c ∉ clients st') ∧ send_of st' c = send_of st c.
Proof.
  induction ms as [|m ms IH]; intros st c r Hwf Hc Hrun; simpl in Hrun.
  - inversion Hrun; subst. by exists st, [].
  - apply hub_run_cons_inv in Hrun as (r1 & Hs & Hrun).
    destruct (hub_step_broadcast_wf st m r1 Hwf Hs)
      as (st1 & tr & -> & Hwf1 & Hmem & Hch).
    destruct Hrun as (r2 & Hrun & ->).
    destruct (IH st1 c r2 Hwf1) as (st' & log & -> & Hc' & Hsd); [|done|].
    { intros H. apply Hmem in H as [H _]. done. }
    exists st', ((Broadcast m, tr) :: log). split; [done|]. split; [done|].
    by rewrite Hsd, Hch, decide_False.
Qed.

(** X10. A registered client whose write pump takes nothing out receives the
    broadcasts in the order the hub serves them, up to the capacity of its
    queue: after the broadcasts [ms] its queue holds what it held followed by
    the first messages of [ms] that fit, it is still registered exactly when
    all of them fitted, and otherwise its channel is closed. What the other
    clients do, and the order of each fan-out, make no difference. *)
Theorem stalled_client_queue ms : ∀ st c r,
  wf st → c ∈ clients st →
  length (ch_buf (send_of st c)) ≤ ch_cap (send_of st c) →
  hub_run st (map Broadcast ms) r →
  ∃ st' log, r = Ok (st', log)
    ∧ ch_buf (send_of st' c)
      = ch_buf (send_of st c)
        ++ take (ch_cap (send_of st c) - length (ch_buf (send_of st c))) ms
    ∧ (c ∈ clients st' ↔
       length (ch_buf (send_of st c)) + length ms ≤ ch_cap (send_of st c))
    ∧ ch_closed (send_of st' c)
      = bool_decide (ch_cap (send_of st c) < length (ch_buf (send_of st c)) + length ms).
Proof.
  induction ms as [|m ms IH]; intros st c r Hwf Hc Hlen Hrun; simpl in Hrun.
  - inversion Hrun; subst. exists st, []. split; [done|].
    rewrite take_nil, app_nil_r. split; [done|]. split.
    + simpl. split; [lia|done].
    + rewrite (Hwf c Hc). symmetry. apply bool_decide_eq_false. simpl. lia.
  - apply hub_run_cons_inv in Hrun as (r1 & Hs & Hrun).
    destruct (hub_step_broadcast_wf st m r1 Hwf Hs)
      as (st1 & tr & -> & Hwf1 & Hmem & Hch).
    destruct Hrun as (r2 & Hrun & ->).
    pose proof (Hch c) as Hc1. rewrite decide_True in Hc1 by done.
    unfold delivered in Hc1.
    destruct (has_room (send_of st c)) eqn:Hroom.
    + unfold has_room in Hroom. apply Nat.ltb_lt in Hroom.
      destruct (IH st1 c r2 Hwf1) as (st' & log & -> & Hbuf & Hin & Hcl); [| |done|].
      { apply Hmem. split; [done|]. unfold has_room. by apply Nat.ltb_lt. }
      { rewrite Hc1. simpl. rewrite length_app. simpl. lia. }
      rewrite Hc1 in Hbuf, Hin, Hcl. simpl in Hbuf, Hin, Hcl.
      rewrite length_app in Hbuf, Hin, Hcl. simpl in Hbuf, Hin, Hcl.
      exists st', ((Broadcast m, tr) :: log). split; [done|]. split; [|split].
      * rewrite Hbuf, <- app_assoc. f_equal.
        replace (ch_cap (send_of st c) - length (ch_buf (send_of st c)))
          with (S (ch_cap (send_of st c) - (length (ch_buf (send_of st c)) + 1)))
          by lia.
        done.
      * rewrite Hin. simpl. lia.
      * rewrite Hcl. apply bool_decide_ext. simpl. lia.
    + unfold has_room in Hroom. apply Nat.ltb_ge in Hroom.
      destruct (broadcasts_skip_absent ms st1 c r2 Hwf1) as (st' & log & -> & Hout & Hsd);
        [|done|].
      { intros H. apply Hmem in H as [_ H]. unfold has_room in H.
        apply Nat.ltb_lt in H. lia. }
      exists st', ((Broadcast m, tr) :: log). split; [done|]. split; [|split].
      * rewrite Hsd, Hc1. simpl.
        replace (ch_cap (send_of st c) - length (ch_buf (send_of st c))) with 0 by lia.
        by rewrite take_0, app_nil_r.
      * split; [done|]. simpl. lia.
      * rewrite Hsd, Hc1. simpl. symmetry. apply bool_decide_eq_true. simpl. lia.
Qed.

(** ** The size of the queues *)

Lemma deliver_bounded m c st st1 tr :
  bounded st → deliver m c st = Ok (st1, tr) → bounded st1.
Proof.
  intros Hb. unfold deliver, try_send, chan_close.
  destruct (ch_closed (send_of st c)); [done|].
  destruct (has_room (send_of st c)) eqn:Hr; intros [= <- <-] c';
    rewrite send_of_insert; case_decide; subst; try apply Hb; simpl.
  destruct (Hb c') as [Hcap Hlen]. split; [done|].
  unfold has_room in Hr. apply Nat.ltb_lt in Hr.
  rewrite length_app. simpl. lia.
Qed.

Lemma fanout_bounded m order : ∀ st st' tr,
  bounded st → fanout m order st = Ok (st', tr) → bounded st'.
Proof.
  induction order as [|c rest IH]; intros st st' tr Hb; simpl.
  - by intros [= <- <-].
  - destruct (deliver m c st) as [[st1 tr1]|] eqn:Hd; [|done].
    destruct (fanout m rest st1) as [[st2 tr2]|] eqn:Hf; [|done].
    intros [= <- <-]. eapply IH; [|done]. by eapply deliver_bounded.
Qed.

Lemma hub_step_bounded st ev st' tr :
  bounded st → hub_step st ev (Ok (st', tr)) → bounded st'.
Proof.
  intros Hb Hs. remember (Ok (st', tr)) as r eqn:Heq.
  destruct Hs as [st c0|st c0|st m order Hp|st c0].
  - simplify_eq. intros c. apply Hb.
  - unfold on_unregister, chan_close in Heq.
    destruct (decide (c0 ∈ clients st)); [|by simplify_eq].
    destruct (ch_closed (send_of st c0)); [done|]. simplify_eq. intros c.
    rewrite send_of_insert. case_decide; subst; apply Hb.
  - by eapply fanout_bounded.
  - simplify_eq. intros c. unfold on_drain, chan_recv.
    destruct (ch_buf (send_of st c0)) as [|v rest] eqn:Hbuf.
    + destruct (ch_closed (send_of st c0)); [|apply Hb].
      rewrite send_of_insert. case_decide; subst; apply Hb.
    + rewrite send_of_insert. case_decide; [|apply Hb]. subst. simpl.
      destruct (Hb c) as [Hcap Hlen]. rewrite Hbuf in Hlen. simpl in Hlen.
      split; [done|lia].
Qed.

(** X11. The hub never buffers more than a queue's capacity: in every state
    a run from the empty hub reaches, each client's channel still has the
    capacity [serveWs] gave it and holds at most that many messages. *)
Theorem queues_stay_bounded evs : ∀ st log,
  hub_run init evs (Ok (st, log)) → bounded st.
Proof.
  assert (H : ∀ st0 st log, bounded st0 → hub_run st0 evs (Ok (st, log)) → bounded st).
  { induction evs as [|ev evs IH]; intros st0 st log Hb Hrun.
    - by inversion Hrun; subst.
    - inversion Hrun as [|? ? st1 tr ? ? log0 Hs Hrest| |]; subst.
      eapply IH; [|done]. by eapply hub_step_bounded. }
  intros st log. apply H. intros c. unfold send_of, init. simpl.
  rewrite lookup_empty. simpl. split; [done|apply Nat.le_0_l].
Qed.

(** ** Registration *)

(** X12. Registering is idempotent and touches no channel: registering a
    client that is already in the registry leaves the state as it is. A
    registration followed by the deregistration of the same client, new to
    the registry and with an open channel, brings the registry back to what
    it was, closes that client's channel with its content intact and leaves
    the other channels alone. *)
Theorem register_then_unregister st c :
  (c ∈ clients st → on_register c st = st)
  ∧ on_register c (on_register c st) = on_register c st
  ∧ (c ∉ clients st → ch_closed (send_of st c) = false →
     ∃ st', on_unregister c (on_register c st) = Ok (st', [Delete c; Close c])
       ∧ clients st' = clients st
       ∧ send_of st' c
         = MkChan (ch_cap (send_of st c)) (ch_buf (send_of st c)) true
       ∧ ∀ c', c' ≠ c → send_of st' c' = send_of st c').
Proof.
  split; [|split].
  - intros Hc. destruct st as [s h]. unfold on_register. simpl in *. f_equal.
    apply set_eq. set_solver.
  - unfold on_register. simpl. f_equal. apply set_eq. set_solver.
  - intros Hc Hopen. eexists. split.
    + apply on_unregister_present; [simpl; set_solver|done].
    + simpl. split; [apply set_eq; set_solver|]. split.
      * rewrite send_of_insert. by rewrite decide_True.
      * intros c' Hne. rewrite send_of_insert. by rewrite decide_False.
Qed.

(** ** The loop of writePump *)

Lemma coalesce_all (ch : Chan message) m arrivals :
  coalesce (length (ch_buf ch)) m ch arrivals =
  Some (frame_of (m :: ch_buf ch),
        MkChan (ch_cap ch) (concat (take (length (ch_buf ch)) arrivals)) (ch_closed ch)).
Proof.
  destruct ch as [cap buf closed]. simpl.
  pose proof (coalesce_queued cap closed buf m [] arrivals) as H.
  rewrite app_nil_r in H. exact H.
Qed.

Lemma writePump_SendReady arrivals rest cap m queued closed :
  writePump (SendReady arrivals true true :: rest) (MkChan cap (m :: queued) closed) =
  let '(ops, ch', returned) :=
    writePump rest (MkChan cap (concat (take (length queued) arrivals)) closed) in
  (SetWriteDeadline writeWait :: TextFrame (frame_of (m :: queued)) true :: ops,
   ch', returned).
Proof.
  cbn [writePump chan_recv ch_buf ch_cap ch_closed].
  pose proof (coalesce_all (MkChan cap queued closed) m arrivals) as H.
  cbn [ch_buf ch_cap ch_closed] in H. by rewrite H.
Qed.

(** X13. Closing a channel does not lose what is pending in it: when the
    hub has closed the channel with messages still queued, the write pump
    first writes them all in one frame, in queue order, then the close frame,
    and only then stops its ticker, closes the connection and returns. With
    nothing pending it goes to the close frame at once. *)
Theorem pending_written_before_close cap pending arrivals writer_ok close_ok rest :
  writePump (SendReady [] true true :: SendReady arrivals writer_ok close_ok :: rest)
            (MkChan cap pending true)
  = ((match pending with
      | [] => []
      | _ :: _ => [SetWriteDeadline writeWait; TextFrame (frame_of pending) true]
      end)
     ++ [SetWriteDeadline writeWait; CloseFrame; TickerStop; ConnClose],
     MkChan cap [] true, true).
Proof.
  destruct pending as [|m queued].
  - reflexivity.
  - rewrite writePump_SendReady. rewrite take_nil. reflexivity.
Qed.

(** X14. The operations of the write pump on its connection always have the
    same shape. Every write is preceded by setting the write deadline to
    [writeWait]. As long as the writes succeed the pump stays in its loop and
    touches neither the ticker nor the connection's close. It returns only
    after a close frame or a failed write, which is then its last write, and
    on returning it stops the ticker and closes the connection, once. *)
Theorem writePump_shape evs : ∀ ch ops ch' returned,
  writePump evs ch = (ops, ch', returned) →
  ∃ goods, Forall (λ op, is_good op = true) goods ∧
    if returned
    then ∃ final, is_final final = true ∧
           ops = with_deadlines goods
                 ++ [SetWriteDeadline writeWait; final; TickerStop; ConnClose]
    else ops = with_deadlines goods.
Proof.
  induction evs as [|ev evs IH]; intros ch ops ch' returned H.
  - injection H as <- <- <-. by exists [].
  - destruct ev as [arrivals wok cok|pok|m|]; cbn [writePump] in H.
    + destruct (chan_recv ch) as [[[m|] ch1]|] eqn:Hrecv.
      * destruct wok.
        -- rewrite coalesce_all in H. destruct cok.
           ++ destruct (writePump evs _) as [[ops0 ch0] r0] eqn:Hrest.
              injection H as <- <- <-.
              destruct (IH _ _ _ _ Hrest) as (goods & Hg & Hshape).
              exists (TextFrame (frame_of (m :: ch_buf ch1)) true :: goods).
              split; [by constructor|].
              destruct r0.
              ** destruct Hshape as (final & Hf & ->). by exists final.
              ** by rewrite Hshape.
           ++ injection H as <- <- <-. exists []. split; [done|].
              by exists (TextFrame (frame_of (m :: ch_buf ch1)) false).
        -- injection H as <- <- <-. exists []. split; [done|]. by exists WriterFailed.
      * injection H as <- <- <-. exists []. split; [done|]. by exists CloseFrame.
      * by apply IH in H.
    + destruct pok.
      * destruct (writePump evs ch) as [[ops0 ch0] r0] eqn:Hrest.
        injection H as <- <- <-.
        destruct (IH _ _ _ _ Hrest) as (goods & Hg & Hshape).
        exists (Ping true :: goods). split; [by constructor|].
        destruct r0.
        -- destruct Hshape as (final & Hf & ->). by exists final.
        -- by rewrite Hshape.
      * injection H as <- <- <-. exists []. split; [done|]. by exists (Ping false).
    + by apply IH in H.
    + by apply IH in H.
Qed.

(** ** From one peer to another *)

(** X15. A message read from one connection reaches the connection of every
    registered client whose queue has room: the read pump publishes its
    normalised form, the fan-out enqueues it, and the next frame the client's
    write pump writes carries what was already pending followed by that
    payload (the payload alone when the queue was empty). *)
Theorem message_reaches_peer sender raw st order c arrivals :
  wf st → order ≡ₚ elements (clients st) →
  c ∈ clients st → has_room (send_of st c) = true →
  ∃ st' tr,
    readPump sender [ReadOk raw] = [Broadcast (normalize raw)]
    ∧ fanout (normalize raw) order st = Ok (st', tr)
    ∧ writePump [SendReady arrivals true true] (send_of st' c)
      = ([SetWriteDeadline writeWait;
          TextFrame (frame_of (ch_buf (send_of st c) ++ [normalize raw])) true],
         MkChan (ch_cap (send_of st c))
                (concat (take (length (ch_buf (send_of st c))) arrivals)) false,
         false).
Proof.
  intros Hwf Hp Hc Hroom.
  destruct (fanout_registry (normalize raw) st order Hwf Hp)
    as (st' & Hrun & Hmem & Hch & Hwf').
  exists st', (flat_map (deliver_effects (normalize raw) st) order).
  split; [done|]. split; [done|].
  rewrite Hch, decide_True by done. unfold delivered. rewrite Hroom.
  destruct (ch_buf (send_of st c)) as [|b bs].
  - cbn [app]. rewrite writePump_SendReady. reflexivity.
  - cbn [app]. rewrite writePump_SendReady.
    cbn [writePump length]. by rewrite length_app, Nat.add_1_r.
Qed.

(** ** The write pump relieving a full queue *)

Lemma on_drain_nonempty c st v rest :
  ch_buf (send_of st c) = v :: rest →
  send_of (on_drain c st) c
  = MkChan (ch_cap (send_of st c)) rest (ch_closed (send_of st c)).
Proof.
  intros H. unfold on_drain, chan_recv. rewrite H.
  rewrite send_of_insert. by rewrite decide_True.
Qed.

(** X16. One receive by the write pump is enough to keep a client: when a
    registered client with a non-empty queue, full or not, has one message
    taken out before the next broadcast, that broadcast enqueues its message
    behind the remaining ones and the client stays registered. *)
Theorem drained_client_survives st c m r :
  wf st → c ∈ clients st →
  length (ch_buf (send_of st c)) ≤ ch_cap (send_of st c) →
  ch_buf (send_of st c) ≠ [] →
  hub_run st [Drain c; Broadcast m] r →
  ∃ st' log, r = Ok (st', log) ∧ c ∈ clients st'
    ∧ ch_buf (send_of st' c) = tail (ch_buf (send_of st c)) ++ [m]
    ∧ ch_closed (send_of st' c) = false.
Proof.
  intros Hwf Hc Hlen Hne Hrun.
  destruct (ch_buf (send_of st c)) as [|v rest] eqn:Hbuf; [done|]. clear Hne.
  apply hub_run_cons_inv in Hrun as (r1 & Hs1 & Hrun).
  inversion Hs1; subst. destruct Hrun as (r2 & Hrun & ->).
  assert (Hwf1 : wf (on_drain c st)).
  { intros c'. rewrite on_drain_clients, on_drain_closed. apply Hwf. }
  apply hub_run_cons_inv in Hrun as (r3 & Hs2 & Hrun).
  destruct (hub_step_broadcast_wf _ m r3 Hwf1 Hs2)
    as (st' & tr & -> & Hwf' & Hmem & Hch).
  destruct Hrun as (r4 & Hrun & ->). inversion Hrun; subst.
  pose proof (on_drain_nonempty c st v rest Hbuf) as Hd.
  assert (Hroom : has_room (send_of (on_drain c st) c) = true).
  { rewrite Hd. unfold has_room. simpl. apply Nat.ltb_lt. simpl in Hlen. lia. }
  eexists _, _. split; [reflexivity|]. split; [|split].
  - apply Hmem. by rewrite on_drain_clients.
  - rewrite Hch, decide_True by (by rewrite on_drain_clients).
    unfold delivered. rewrite Hroom, Hd. reflexivity.
  - apply Hwf', Hmem. by rewrite on_drain_clients.
Qed.

(** * The further properties on sample inputs *)

(** X2 on ["a\n\nb"] read from the connection. *)
Lemma published_payload_bounded_witness :
  Broadcast [x61; x20; x20; x62] ∈ readPump_conn 1%positive [Frame two_newlines]
  ∧ (Z.of_nat (length [x61; x20; x20; x62]) ≤ maxMessageSize)%Z.
Proof.
  assert (H : Broadcast [x61; x20; x20; x62]
              ∈ readPump_conn 1%positive [Frame two_newlines]).
  { apply list_elem_of_singleton. reflexivity. }
  split; [exact H|].
  apply (published_payload_bounded 1%positive [Frame two_newlines]
           [x61; x20; x20; x62]). exact H.
Defined.

(** X3 on [blank_message]. *)
Lemma blank_message_published_empty_witness :
  forallb asciiSpace blank_message = true
  ∧ normalize blank_message = []
  ∧ readPump 1%positive [ReadOk blank_message] = [Broadcast []].
Proof.
  split; [reflexivity|].
  apply (blank_message_published_empty 1%positive blank_message). reflexivity.
Defined.

(** X5 on a frame of 513 bytes between two short ones. *)
Lemma oversized_frame_ends_readPump_witness :
  readPump_conn 1%positive
    (map Frame [[x61]] ++ Frame (repeat x61 513) :: [Frame [x62]])
  = map (λ m, Broadcast (normalize m)) [[x61]] ++ [Unregister 1%positive].
Proof.
  apply (oversized_frame_ends_readPump 1%positive [[x61]] (repeat x61 513) [Frame [x62]]).
  - constructor; [|constructor]. apply Z.leb_le. reflexivity.
  - apply Z.ltb_lt. vm_compute. reflexivity.
Defined.

(** X6 on [one_stalled], walked forwards and backwards. *)
Lemma fanout_order_independent_witness :
  ∃ st' tr1 tr2,
    fanout [x62] (elements (clients one_stalled)) one_stalled = Ok (st', tr1)
    ∧ fanout [x62] (reverse (elements (clients one_stalled))) one_stalled = Ok (st', tr2)
    ∧ tr1 ≡ₚ tr2.
Proof.
  apply (fanout_order_independent [x62] one_stalled
           (elements (clients one_stalled)) (reverse (elements (clients one_stalled)))).
  - apply wfb_wf. vm_compute. reflexivity.
  - reflexivity.
  - apply reverse_Permutation.
Defined.

(** X7 on [reregistered]. *)
Lemma closed_registered_client_panics_witness :
  ch_closed (send_of reregistered 1%positive) = true
  ∧ (∀ m r, hub_step reregistered (Broadcast m) r → r = Panic)
  ∧ on_unregister 1%positive reregistered = Panic.
Proof.
  split; [reflexivity|].
  apply (closed_registered_client_panics reregistered 1%positive).
  - unfold reregistered. simpl. set_solver.
  - reflexivity.
Defined.

(** X8 on [three_idle]: client 2 leaves and is registered again. *)
Lemma reregistration_panics_witness :
  run [Unregister 2%positive; Register 2%positive; Broadcast [x61]] three_idle = Panic.
Proof.
  apply (reregistration_panics three_idle 2%positive [x61]).
  - apply wfb_wf. vm_compute. reflexivity.
  - unfold three_idle. simpl. set_solver.
  - apply run_hub_run.
Defined.

(** X9 on [after_unregister]: the write pump of the closed client 1 takes a
    receive; the channel stays closed. *)
Lemma closed_channel_left_alone_witness :
  ch_closed (send_of (on_drain 1%positive after_unregister) 1%positive) = true
  ∧ ch_buf (send_of (on_drain 1%positive after_unregister) 1%positive)
    `suffix_of` ch_buf (send_of after_unregister 1%positive)
  ∧ ch_cap (send_of (on_drain 1%positive after_unregister) 1%positive)
    = ch_cap (send_of after_unregister 1%positive)
  ∧ ∀ e, e ∈ @nil Effect → effect_client e ≠ 1%positive.
Proof.
  apply (closed_channel_left_alone after_unregister (Drain 1%positive)
           (on_drain 1%positive after_unregister) [] 1%positive).
  - apply step_drain.
  - reflexivity.
Defined.

(** X10 on [three_idle]: client 2 never drains; 257 broadcasts leave it
    evicted with the first 256 messages in its queue. *)
Lemma stalled_client_queue_witness :
  ∃ st' log,
    run (map Broadcast (repeat [x61] 256 ++ [[x62]])) three_idle = Ok (st', log)
    ∧ ch_buf (send_of st' 2%positive)
      = ch_buf (send_of three_idle 2%positive)
        ++ take (ch_cap (send_of three_idle 2%positive)
                 - length (ch_buf (send_of three_idle 2%positive)))
                (repeat [x61] 256 ++ [[x62]])
    ∧ (2%positive ∈ clients st' ↔
       length (ch_buf (send_of three_idle 2%positive))
       + length (repeat [x61] 256 ++ [[x62]])
       ≤ ch_cap (send_of three_idle 2%positive))
    ∧ ch_closed (send_of st' 2%positive)
      = bool_decide (ch_cap (send_of three_idle 2%positive)
                     < length (ch_buf (send_of three_idle 2%positive))
                       + length (repeat [x61] 256 ++ [[x62]])).
Proof.
  apply (stalled_client_queue (repeat [x61] 256 ++ [[x62]]) three_idle 2%positive).
  - apply wfb_wf. vm_compute. reflexivity.
  - unfold three_idle. simpl. set_solver.
  - apply Nat.leb_le. vm_compute. reflexivity.
  - apply run_hub_run.
Defined.

(** X11 on [busy_session]. *)
Lemma queues_stay_bounded_witness :
  ∃ st log, run busy_session init = Ok (st, log) ∧ bounded st.
Proof.
  pose proof (run_hub_run busy_session init) as Hrun.
  destruct (run busy_session init) as [[st log]|] eqn:E; [|vm_compute in E; discriminate E].
  exists st, log. split; [reflexivity|].
  apply (queues_stay_bounded busy_session st log Hrun).
Defined.

(** X12 on [three_idle] and a client 4 that is new to it. *)
Lemma register_then_unregister_witness :
  ∃ st', on_unregister 4%positive (on_register 4%positive three_idle)
         = Ok (st', [Delete 4%positive; Close 4%positive])
    ∧ clients st' = clients three_idle
    ∧ send_of st' 4%positive
      = MkChan (ch_cap (send_of three_idle 4%positive))
               (ch_buf (send_of three_idle 4%positive)) true
    ∧ ∀ c', c' ≠ 4%positive → send_of st' c' = send_of three_idle c'.
Proof.
  destruct (register_then_unregister three_idle 4%positive) as (_ & _ & H).
  apply H.
  - unfold three_idle. simpl. set_solver.
  - reflexivity.
Defined.

(** X14 on a pump that pings once, then finds its channel closed with three
    messages pending. *)
Lemma writePump_shape_witness :
  ∃ goods, Forall (λ op, is_good op = true) goods ∧
    ∃ final, is_final final = true ∧
      [SetWriteDeadline writeWait; Ping true;
       SetWriteDeadline writeWait;
       TextFrame [x61; x0a; x62; x0a; x63] true;
       SetWriteDeadline writeWait; CloseFrame; TickerStop; ConnClose]
      = with_deadlines goods
        ++ [SetWriteDeadline writeWait; final; TickerStop; ConnClose].
Proof.
  apply (writePump_shape
           [TickerFired true; SendReady [] true true; SendReady [] true true]
           closed_pending _ (MkChan sendCap [] true) true).
  reflexivity.
Defined.

(** X15 on [three_idle]: ["a\n\nb"] sent by client 1 reaches client 2 as
    ["a  b"]. *)
Lemma message_reaches_peer_witness :
  ∃ st' tr,
    readPump 1%positive [ReadOk two_newlines] = [Broadcast (normalize two_newlines)]
    ∧ fanout (normalize two_newlines) (elements (clients three_idle)) three_idle
      = Ok (st', tr)
    ∧ writePump [SendReady [] true true] (send_of st' 2%positive)
      = ([SetWriteDeadline writeWait;
          TextFrame (frame_of (ch_buf (send_of three_idle 2%positive)
                               ++ [normalize two_newlines])) true],
         MkChan (ch_cap (send_of three_idle 2%positive))
                (concat (take (length (ch_buf (send_of three_idle 2%positive))) []))
                false,
         false).
Proof.
  apply (message_reaches_peer 1%positive two_newlines three_idle
           (elements (clients three_idle)) 2%positive []).
  - apply wfb_wf. vm_compute. reflexivity.
  - reflexivity.
  - unfold three_idle. simpl. set_solver.
  - reflexivity.
Defined.

(** X16 on [one_stalled]: the stalled client 2 takes one message out. *)
Lemma drained_client_survives_witness :
  ∃ st' log,
    run [Drain 2%positive; Broadcast [x62]] one_stalled = Ok (st', log)
    ∧ 2%positive ∈ clients st'
    ∧ ch_buf (send_of st' 2%positive)
      = tail (ch_buf (send_of one_stalled 2%positive)) ++ [[x62]]
    ∧ ch_closed (send_of st' 2%positive) = false.
Proof.
  apply (drained_client_survives one_stalled 2%positive [x62]).
  - apply wfb_wf. vm_compute. reflexivity.
  - unfold one_stalled. simpl. set_solver.
  - apply Nat.leb_le. vm_compute. reflexivity.
  - vm_compute. discriminate.
  - apply run_hub_run.
Defined.
